(** * Stack usage exporter: a shallow embedding of [stack.py]

    The exporter polls the Cloud Foundry API for the application
    inventory, counts applications per stack, stores the counts in the
    module-level [stack_cache] and serves them as the Prometheus gauge
    [cf_stack_count] on [/metrics].

    The embedding follows the source function by function.  Python
    dictionaries are insertion-ordered, and the order in which gauge
    children are created is the order in which they are rendered, so a
    dictionary is an association list without duplicate keys; its view as
    a finite map ([list_to_map], a [gmap]) is the "mapping" of the
    specification.  Parsed JSON bodies are records shaped after the
    Cloud Foundry v3 API the code navigates; a field the code reads with
    [.get] is an [option], [None] standing for an absent key.  Module
    globals ([stack_cache], [CF_AUTH_TOKEN], the children of
    [stack_gauge]) are fields of an explicit [state], threaded through a
    small state-and-exception monad together with a log of the outside
    effects (requests sent, sleeps).  The startup code ([validate_env_vars],
    [get_uaa_endpoint], [grab_valid_stacks], the [__main__] block) is
    embedded the same way; [urlparse] and the parsed [SCRAPE_INTERVAL] are
    parameters of it. *)

From stdpp Require Import base option list strings pretty gmap fin_maps.
From Stdlib Require Import ZArith Ascii.

Open Scope string_scope.
Open Scope list_scope.
Open Scope Z_scope.

(** ** Python dictionaries with string keys *)

Module PyDict.

(** Items in insertion order. *)
Definition t (V : Type) : Type := list (string * V).

(** [d.get(k)] *)
Fixpoint get {V} (d : t V) (k : string) : option V :=
  match d with
  | [] => None
  | (k', v) :: rest => if String.eqb k k' then Some v else get rest k
  end.

(** [d.get(k, default)] *)
Definition get_default {V} (d : t V) (k : string) (default : V) : V :=
  match get d k with
  | Some v => v
  | None => default
  end.

(** [d[k] = v]: an existing key keeps its position, a new one goes last. *)
Fixpoint setitem {V} (d : t V) (k : string) (v : V) : t V :=
  match d with
  | [] => [(k, v)]
  | (k', v') :: rest =>
      if String.eqb k k' then (k', v) :: rest
      else (k', v') :: setitem rest k v
  end.

Definition keys {V} (d : t V) : list string := d.*1.

(** The dictionary as a finite map: what [==] on dictionaries compares. *)
Definition to_map {V} (d : t V) : gmap string V := list_to_map d.

End PyDict.

Abbreviation pydict := (PyDict.t Z).

(** ** Configuration (module-level constants read from the environment) *)

Record config : Type := Config {
  CF_API_URL : string;
  CF_UAA_URL : string;
  CF_USERNAME : string;
  CF_PASSWORD : string;
  SCRAPE_INTERVAL : Z;
  SKIP_SSL_VALIDATION : bool;
  INCLUDE_INVALID_STACKS : bool
}.

(** [str.lower()] on the ASCII letters; the words [str2bool] compares with
    are ASCII, and no other character lowers to one of their letters. *)
Definition ascii_lower (c : ascii) : ascii :=
  let n := nat_of_ascii c in
  if ((65 <=? n)%nat && (n <=? 90)%nat)%bool then ascii_of_nat (n + 32) else c.

Fixpoint lower (s : string) : string :=
  match s with
  | EmptyString => EmptyString
  | String c rest => String (ascii_lower c) (lower rest)
  end.

(** What [os.getenv(name, False)] returns: the variable's text, or the
    default [False]. *)
Inductive env_value : Type :=
  | EnvText (s : string)
  | EnvFalse.

(** [str(val)] *)
Definition py_str (val : env_value) : string :=
  match val with
  | EnvText s => s
  | EnvFalse => "False"
  end.

(** [str2bool], line 39. *)
Definition str2bool (val : env_value) : bool :=
  bool_decide (lower (py_str val) ∈ ["yes"; "true"; "t"; "1"]).

(** [os.getenv(name, False)] over an environment given as a dictionary. *)
Definition getenv_or_False (environ : PyDict.t string) (name : string) : env_value :=
  match PyDict.get environ name with
  | Some s => EnvText s
  | None => EnvFalse
  end.

(** Lines 60 and 61: the two flags as read from the environment. *)
Definition SKIP_SSL_VALIDATION_from (environ : PyDict.t string) : bool :=
  str2bool (getenv_or_False environ "SKIP_SSL_VERIFY").

Definition INCLUDE_INVALID_STACKS_from (environ : PyDict.t string) : bool :=
  str2bool (getenv_or_False environ "INCLUDE_INVALID_STACKS").

(** ** Parsed response bodies *)

(** An application resource: [app["lifecycle"]["data"]["stack"]], every
    level read with [.get].  For [stack], [None] is an absent key or a JSON
    null: [.get("stack")] gives [None] for both. *)
Record lifecycle_data : Type := LifecycleData { stack : option string }.
Record lifecycle_t : Type := Lifecycle { data : option lifecycle_data }.
Record app_t : Type := App { lifecycle : option lifecycle_t }.

Record pagination_t : Type := Pagination { total_pages : option Z }.

(** A page of [/v3/apps]. *)
Record apps_page : Type := AppsPage {
  pagination : option pagination_t;
  resources : option (list app_t)
}.

(** The token endpoint's body. *)
Record token_body : Type := TokenBody { access_token : option string }.

(** ** Aggregation (lines 189-196) *)

(** [response.get("resources", [])] *)
Definition get_resources (response : apps_page) : list app_t :=
  default [] (resources response).

(** [app.get("lifecycle", {}).get("data", {}).get("stack")] *)
Definition get_stack (app : app_t) : option string :=
  match lifecycle app with
  | None => None
  | Some lc =>
      match data lc with
      | None => None
      | Some d => stack d
      end
  end.

(** Truth value of [stack] in [if stack:]: [None] and the empty string are
    false. *)
Definition truthy (stack : option string) : bool :=
  match stack with
  | None => false
  | Some EmptyString => false
  | Some (String _ _) => true
  end.

(** The body of the inner [for app in ...] loop, lines 191-196. *)
Definition count_app (cfg : config) (valid_stacks : list string)
    (stack_counts : pydict) (app : app_t) : pydict :=
  match get_stack app with
  | Some stack =>
      if truthy (Some stack) then
        if (INCLUDE_INVALID_STACKS cfg || bool_decide (stack ∈ valid_stacks))%bool
        then PyDict.setitem stack_counts stack
               (PyDict.get_default stack_counts stack 0 + 1)
        else stack_counts
      else stack_counts
  | None => stack_counts
  end.

(** The two nested loops over [responses], started from a given dictionary. *)
Definition aggregate_from (cfg : config) (valid_stacks : list string)
    (stack_counts : pydict) (responses : list apps_page) : pydict :=
  foldl (fun acc response => foldl (count_app cfg valid_stacks) acc (get_resources response))
        stack_counts responses.

(** Lines 143 and 189-196: a fresh [stack_counts = {}] filled from all pages. *)
Definition aggregate (cfg : config) (valid_stacks : list string)
    (responses : list apps_page) : pydict :=
  aggregate_from cfg valid_stacks [] responses.

(** ** HTTP requests and what the outside world answers *)

(** The arguments of [requests.get] / [requests.post]. *)
Record request : Type := Request {
  method : string;
  url : string;
  headers : PyDict.t string;
  form : PyDict.t string;
  verify : bool
}.

(** [requests] checks the server's certificate exactly when its [verify]
    argument is true. *)
Definition tls_verification_performed (r : request) : bool := verify r.

(** What comes back: nothing (a transport failure), or a status code with a
    body that parses as JSON ([Some]) or does not ([None]). *)
Inductive reply (B : Type) : Type :=
  | NoResponse
  | Replied (status_code : Z) (body : option B).
Arguments NoResponse {B}.
Arguments Replied {B} _ _.

(** The servers seen by one pass of the refresh loop.  [apps_reply n] answers
    the GET issued when [retries] is [n], [token_reply n] the token POST
    issued while that attempt's failure is handled, [page_reply] the GETs of
    the numbered pages. *)
Record world : Type := World {
  apps_reply : nat -> request -> reply apps_page;
  token_reply : nat -> request -> reply token_body;
  page_reply : request -> reply apps_page
}.

(** ** Exceptions, effects and the monad *)

(** [RequestException] carries [err.response] as the status code, [None]
    when no response came with the error. *)
Inductive exn : Type :=
  | RequestException (response : option Z)
  | KeyError
  | Exception.

Inductive result (A : Type) : Type :=
  | Returned (a : A)
  | Raised (e : exn).
Arguments Returned {A} _.
Arguments Raised {A} _.

Inductive effect : Type :=
  | Sleep (seconds : Z)
  | Get (r : request)
  | Post (r : request).

(** The module globals that change after startup, and the log of effects,
    most recent first. *)
Record state : Type := State {
  stack_cache : pydict;
  CF_AUTH_TOKEN : string;
  stack_gauge : pydict;
  log : list effect
}.

Definition M (A : Type) : Type := state -> result A * state.

#[global] Instance M_ret : MRet M := fun A a st => (Returned a, st).

#[global] Instance M_bind : MBind M := fun A B f m st =>
  match m st with
  | (Returned a, st') => f a st'
  | (Raised e, st') => (Raised e, st')
  end.

Definition raise {A} (e : exn) : M A := fun st => (Raised e, st).

(** [try: m  except ... as err: handler err] *)
Definition try_except {A} (m : M A) (handler : exn -> M A) : M A := fun st =>
  match m st with
  | (Returned a, st') => (Returned a, st')
  | (Raised e, st') => handler e st'
  end.

Definition perform (e : effect) : M unit := fun st =>
  (Returned tt,
   {| stack_cache := stack_cache st; CF_AUTH_TOKEN := CF_AUTH_TOKEN st;
      stack_gauge := stack_gauge st; log := e :: log st |}).

(** [time.sleep(seconds)] *)
Definition sleep (seconds : Z) : M unit := perform (Sleep seconds).

Definition read_token : M string := fun st => (Returned (CF_AUTH_TOKEN st), st).

Definition write_token (token : string) : M unit := fun st =>
  (Returned tt,
   {| stack_cache := stack_cache st; CF_AUTH_TOKEN := token;
      stack_gauge := stack_gauge st; log := log st |}).

(** [with cache_lock: stack_cache = stack_counts] *)
Definition write_stack_cache (stack_counts : pydict) : M unit := fun st =>
  (Returned tt,
   {| stack_cache := stack_counts; CF_AUTH_TOKEN := CF_AUTH_TOKEN st;
      stack_gauge := stack_gauge st; log := log st |}).

(** [d[key]] on a parsed body: [KeyError] when the key is absent. *)
Definition subscript {A} (field : option A) : M A :=
  match field with
  | Some a => mret a
  | None => raise KeyError
  end.

(** Sending a request; a transport failure is a [RequestException] without
    a response. *)
Definition send {B} (e : effect) (answer : reply B) : M (Z * option B) :=
  perform e;;
  match answer with
  | NoResponse => raise (RequestException None)
  | Replied status_code body => mret (status_code, body)
  end.

(** [response.raise_for_status()]: an [HTTPError] carrying the response for
    the 4xx and 5xx codes. *)
Definition raise_for_status (status_code : Z) : M unit :=
  if ((400 <=? status_code) && (status_code <? 600))%bool
  then raise (RequestException (Some status_code))
  else mret tt.

(** [response.json()]: a body that does not parse raises
    [requests.exceptions.JSONDecodeError], a [RequestException] without a
    response. *)
Definition json {B} (body : option B) : M B :=
  match body with
  | Some b => mret b
  | None => raise (RequestException None)
  end.

(** ** The API client and the authenticator *)

(** The request [api_call] builds, lines 131-133. *)
Definition api_call_request (cfg : config) (token : string) (url : string) : request :=
  {| method := "GET";
     url := url;
     headers := [("Authorization", "Bearer " +:+ token)];
     form := [];
     verify := SKIP_SSL_VALIDATION cfg |}.

(** [api_call], lines 129-135. *)
Definition api_call {B} (cfg : config) (server : request -> reply B) (url : string) : M B :=
  token ← read_token;
  let req := api_call_request cfg token url in
  response ← send (Get req) (server req);
  raise_for_status response.1;;
  json response.2.

(** The request [get_token] builds, lines 108-119. *)
Definition get_token_request (cfg : config) : request :=
  {| method := "POST";
     url := CF_UAA_URL cfg +:+ "/oauth/token";
     headers := [("Accept", "application/json");
                 ("Authorization", "Basic Y2Y6");
                 ("Content-Type'", "application/x-www-form-urlencoded")];
     form := [("grant_type", "password");
              ("client_id", "cf");
              ("username", CF_USERNAME cfg);
              ("password", CF_PASSWORD cfg)];
     verify := SKIP_SSL_VALIDATION cfg |}.

(** [get_token], lines 105-126. *)
Definition get_token (cfg : config) (server : request -> reply token_body) : M unit :=
  let req := get_token_request cfg in
  response ← send (Post req) (server req);
  raise_for_status response.1;;
  body ← json response.2;
  token ← subscript (access_token body);
  write_token token.

(** ** The refresh loop *)

Definition apps_endpoint (cfg : config) : string := CF_API_URL cfg +:+ "/v3/apps".

(** The handler of a failed discovery attempt, lines 153-174; only the
    401/403 branch differs from the others, by its call of [get_token]. *)
Definition on_discovery_error (cfg : config) (w : world) (retries : nat) (err : exn) : M unit :=
  match err with
  | RequestException (Some status_code) =>
      if ((status_code =? 403) || (status_code =? 401))%bool
      then get_token cfg (token_reply w retries);; sleep 5
      else sleep 5
  | _ => sleep 5
  end.

(** The [while apps_count == 0] loop, lines 147-174.  The recursion is on
    [remaining], the attempts left before [retries >= 5] holds; [retries]
    is [5 - remaining].  The bodies of a [world] are JSON objects, never
    equal to [0], so the loop is left on the first call of [api_call] that
    returns.  The loop on bodies that may equal [0], which then leave the
    condition true without adding to [retries], is [discovery_loop] below. *)
Fixpoint page_discovery (cfg : config) (w : world) (remaining : nat) : M apps_page :=
  match remaining with
  | O => raise Exception
  | S remaining' =>
      let retries := (5 - remaining)%nat in
      try_except (api_call cfg (apps_reply w retries) (apps_endpoint cfg))
        (fun err =>
           on_discovery_error cfg w retries err;;
           page_discovery cfg w remaining')
  end.

(** [f"{apps_endpoint}?page={page}&per_page=50"] *)
Definition page_url (cfg : config) (page : Z) : string :=
  apps_endpoint cfg +:+ "?page=" +:+ pretty page +:+ "&per_page=50".

(** [list(exec.map(api_call, all_urls))]: the results are collected in the
    order of [all_urls] and the first exception in that order is raised.
    The log lists the requests whose result was collected, in that order.
    The pool submits every call before a result is read, so that on a
    failure it may have sent requests for later pages as well: those are
    not in the log, and nothing is stated of the GETs of a pass that a page
    failure aborts.  The token does not change while the pages are fetched. *)
Fixpoint fetch_all (cfg : config) (w : world) (all_urls : list string) : M (list apps_page) :=
  match all_urls with
  | [] => mret []
  | u :: rest =>
      response ← api_call cfg (page_reply w) u;
      responses ← fetch_all cfg w rest;
      mret (response :: responses)
  end.

(** The [try] block of one pass, lines 142-200. *)
Definition refresh (cfg : config) (valid_stacks : list string) (w : world) : M pydict :=
  apps_count ← page_discovery cfg w 5;
  pagination ← subscript (pagination apps_count);
  apps_count ← subscript (total_pages pagination);
  let all_urls := page_url cfg <$> seqZ 1 apps_count in
  responses ← fetch_all cfg w all_urls;
  let stack_counts := aggregate cfg valid_stacks responses in
  write_stack_cache stack_counts;;
  mret stack_counts.

Inductive outcome : Type :=
  | Published (stack_counts : pydict)
  | Aborted (err : exn).

(** One pass of [while True], lines 141-208: the [try] block, then the
    sleep of the success path (line 208) or of the handler (line 204). *)
Definition iteration (cfg : config) (valid_stacks : list string) (w : world)
    (st : state) : outcome * state :=
  match refresh cfg valid_stacks w st with
  | (Returned stack_counts, st') =>
      (Published stack_counts, (sleep (SCRAPE_INTERVAL cfg) st').2)
  | (Raised err, st') =>
      (Aborted err, (sleep (SCRAPE_INTERVAL cfg) st').2)
  end.

(** ** The metrics endpoint *)

Record Response : Type := MkResponse {
  status : Z;
  response_body : string;
  mimetype : string
}.

(** [stack_gauge.labels(stack=stack).set(count)]: the child of that label is
    created on first use and keeps its place afterwards. *)
Definition gauge_set (children : pydict) (item : string * Z) : pydict :=
  PyDict.setitem children item.1 item.2.

(** The [for stack, count in local_cache.items()] loop, lines 217-218. *)
Definition set_gauges (children : pydict) (local_cache : pydict) : pydict :=
  foldl gauge_set children local_cache.

(** [metrics], lines 211-220.  [generate_latest] is the encoder of
    [prometheus_client], applied to the children of the registry's one
    gauge; a Flask [Response] built this way has status 200. *)
Definition metrics (generate_latest : pydict -> string) (st : state) : Response * state :=
  let local_cache := stack_cache st in
  let children := set_gauges (stack_gauge st) local_cache in
  ({| status := 200;
      response_body := generate_latest children;
      mimetype := "text/plain" |},
   {| stack_cache := stack_cache st; CF_AUTH_TOKEN := CF_AUTH_TOKEN st;
      stack_gauge := children; log := log st |}).

(** ** The running process *)

(** The state when the refresh thread starts (line 231): nothing cached, no
    gauge child, the token of the startup login. *)
Definition initial_state (token : string) : state :=
  {| stack_cache := []; CF_AUTH_TOKEN := token; stack_gauge := []; log := [] |}.

(** The refresh thread touches [stack_cache] in one assignment under the
    lock and a scrape reads it once under the lock, so a run of the
    process in which no request overlaps another is a sequence of whole
    passes and whole scrapes.  Requests that overlap are the [threads]
    below. *)
Inductive event : Type :=
  | Pass (w : world)
  | Scrape.

Inductive observation : Type :=
  | PassDone (o : outcome)
  | Served (r : Response).

Definition step (cfg : config) (valid_stacks : list string)
    (generate_latest : pydict -> string) (st : state) (ev : event)
    : observation * state :=
  match ev with
  | Pass w => let r := iteration cfg valid_stacks w st in (PassDone r.1, r.2)
  | Scrape => let r := metrics generate_latest st in (Served r.1, r.2)
  end.

(** The observations are listed in the order of the events. *)
Fixpoint run (cfg : config) (valid_stacks : list string)
    (generate_latest : pydict -> string) (st : state) (evs : list event)
    : list observation * state :=
  match evs with
  | [] => ([], st)
  | ev :: rest =>
      let r := step cfg valid_stacks generate_latest st ev in
      let r' := run cfg valid_stacks generate_latest r.2 rest in
      (r.1 :: r'.1, r'.2)
  end.

(** The aggregate of the last pass that published, [{}] when none did. *)
Fixpoint last_published (obs : list observation) (previous : pydict) : pydict :=
  match obs with
  | [] => previous
  | PassDone (Published stack_counts) :: rest => last_published rest stack_counts
  | _ :: rest => last_published rest previous
  end.

(** ** Startup *)

(** The root document of the API: [api_info["links"]["uaa"]["href"]]. *)
Record uaa_link : Type := UaaLink { href : option string }.
Record links_t : Type := Links { uaa : option uaa_link }.
Record info_body : Type := InfoBody { links : option links_t }.

(** An element of the stack list: [stack['name']]. *)
Record stack_resource : Type := StackResource { name : option string }.

(** The body of [/v3/stacks]: [stack_list['resources']]. *)
Module StackList.
Record t : Type := Make { resources : option (list stack_resource) }.
End StackList.

(** The servers seen during startup. *)
Record startup_world : Type := StartupWorld {
  info_reply : request -> reply info_body;
  login_reply : request -> reply token_body;
  stacks_reply : request -> reply StackList.t
}.

Definition REQUIRED_ENV_VARS : list string := ["CF_API_URL"; "CF_USERNAME"; "CF_PASSWORD"].

(** [[var for var in REQUIRED_ENV_VARS if not os.getenv(var)]], line 75: an
    unset variable and one set to the empty string are both missing. *)
Definition missing_vars (environ : PyDict.t string) : list string :=
  List.filter (fun var => negb (truthy (PyDict.get environ var))) REQUIRED_ENV_VARS.

Inductive validation : Type :=
  | SysExit (code : Z) (missing : list string)
  | Validated (api_url : string).

(** [validate_env_vars], lines 73-82.  [scheme] is
    [urlparse(...).scheme] of the standard library; [SysExit] carries the
    variables named in the fatal log line. *)
Definition validate_env_vars (scheme : string -> string)
    (environ : PyDict.t string) : validation :=
  match missing_vars environ with
  | [] =>
      let api_url := default "" (PyDict.get environ "CF_API_URL") in
      match scheme api_url with
      | EmptyString => Validated ("https://" +:+ api_url)
      | String _ _ => Validated api_url
      end
  | missing => SysExit 1 missing
  end.

(** [get_uaa_endpoint], lines 84-87; the value returned is the one the
    source stores in [CF_UAA_URL]. *)
Definition get_uaa_endpoint (cfg : config) (server : request -> reply info_body) : M string :=
  api_info ← api_call cfg server (CF_API_URL cfg);
  links ← subscript (links api_info);
  uaa ← subscript (uaa links);
  subscript (href uaa).

(** The [for stack in stack_list['resources']] loop, lines 98-100. *)
Fixpoint append_names (valid_stacks : list string) (stacks : list stack_resource)
    : M (list string) :=
  match stacks with
  | [] => mret valid_stacks
  | stack :: rest =>
      stack_name ← subscript (name stack);
      append_names (valid_stacks ++ [stack_name]) rest
  end.

(** [grab_valid_stacks], lines 89-102, from the list [valid_stacks] holds
    when it is called to the list it holds afterwards. *)
Definition grab_valid_stacks (cfg : config) (server : request -> reply StackList.t)
    (valid_stacks : list string) : M (list string) :=
  stack_list ← api_call cfg server (CF_API_URL cfg +:+ "/v3/stacks");
  stacks ← subscript (StackList.resources stack_list);
  append_names valid_stacks stacks.

(** The module constants of lines 52-61 once the URL is validated;
    [scrape_interval] is [int(os.getenv("SCRAPE_INTERVAL", "300"))].  The
    variables read here are set: [validate_env_vars] has passed. *)
Definition load_config (environ : PyDict.t string) (api_url : string)
    (scrape_interval : Z) : config :=
  {| CF_API_URL := api_url;
     CF_UAA_URL := "";
     CF_USERNAME := default "" (PyDict.get environ "CF_USERNAME");
     CF_PASSWORD := default "" (PyDict.get environ "CF_PASSWORD");
     SCRAPE_INTERVAL := scrape_interval;
     SKIP_SSL_VALIDATION := SKIP_SSL_VALIDATION_from environ;
     INCLUDE_INVALID_STACKS := INCLUDE_INVALID_STACKS_from environ |}.

(** [CF_UAA_URL = ...], line 87. *)
Definition with_uaa_url (cfg : config) (uaa_url : string) : config :=
  {| CF_API_URL := CF_API_URL cfg;
     CF_UAA_URL := uaa_url;
     CF_USERNAME := CF_USERNAME cfg;
     CF_PASSWORD := CF_PASSWORD cfg;
     SCRAPE_INTERVAL := SCRAPE_INTERVAL cfg;
     SKIP_SSL_VALIDATION := SKIP_SSL_VALIDATION cfg;
     INCLUDE_INVALID_STACKS := INCLUDE_INVALID_STACKS cfg |}.

(** How the [__main__] block ends: [sys.exit], an exception nobody catches,
    or the refresh thread and the web server started with the constants,
    the valid-stack list and the globals as they then are. *)
Inductive startup : Type :=
  | Exited (code : Z)
  | Crashed (err : exn) (st : state)
  | Running (cfg : config) (valid_stacks : list string) (st : state).

(** The [__main__] block, lines 223-232, up to the start of the thread.
    [CF_AUTH_TOKEN] is [""] (line 53) and [valid_stacks] is [[]] (line 70)
    when it begins. *)
Definition main (scheme : string -> string) (scrape_interval : Z)
    (environ : PyDict.t string) (sw : startup_world) : startup :=
  match validate_env_vars scheme environ with
  | SysExit code _ => Exited code
  | Validated api_url =>
      let cfg0 := load_config environ api_url scrape_interval in
      match get_uaa_endpoint cfg0 (info_reply sw) (initial_state "") with
      | (Raised err, st) => Crashed err st
      | (Returned uaa_url, st1) =>
          let cfg := with_uaa_url cfg0 uaa_url in
          match get_token cfg (login_reply sw) st1 with
          | (Raised err, st) => Crashed err st
          | (Returned _, st2) =>
              if INCLUDE_INVALID_STACKS cfg then Running cfg [] st2
              else
                match grab_valid_stacks cfg (stacks_reply sw) [] st2 with
                | (Raised err, st) => Crashed err st
                | (Returned valid_stacks, st3) => Running cfg valid_stacks st3
                end
          end
      end
  end.

(** ** Vocabulary of the properties *)

(** A well-formed aggregate: every key a non-empty string, every count a
    non-negative integer. *)
Definition well_formed (d : pydict) : Prop :=
  Forall (fun item => item.1 ≠ "" ∧ 0 ≤ item.2) d.

(** All keys are names of the valid-stack list. *)
Definition keys_valid (valid_stacks : list string) (d : pydict) : Prop :=
  Forall (fun k => k ∈ valid_stacks) (PyDict.keys d).

(** The application records of a list of pages, in the order the loops
    visit them. *)
Definition records (responses : list apps_page) : list app_t :=
  concat (get_resources <$> responses).

(** Two pages holding the same records, in any order. *)
Definition same_records (p q : apps_page) : Prop :=
  get_resources p ≡ₚ get_resources q.

(** The stack an application is counted under, if it is counted. *)
Definition counted (cfg : config) (valid_stacks : list string) (app : app_t) : option string :=
  match get_stack app with
  | Some stack =>
      if (truthy (Some stack)
          && (INCLUDE_INVALID_STACKS cfg || bool_decide (stack ∈ valid_stacks)))%bool
      then Some stack else None
  | None => None
  end.

(** Counting one more application of a stack, on the finite-map view. *)
Definition bump (m : gmap string Z) (stack : string) : gmap string Z :=
  <[stack := default 0 (m !! stack) + 1]> m.

Definition bump_counted (cfg : config) (valid_stacks : list string)
    (m : gmap string Z) (app : app_t) : gmap string Z :=
  match counted cfg valid_stacks app with
  | Some stack => bump m stack
  | None => m
  end.

(** The aggregates published during a run, oldest first. *)
Fixpoint published (obs : list observation) : list pydict :=
  match obs with
  | [] => []
  | PassDone (Published stack_counts) :: rest => stack_counts :: published rest
  | _ :: rest => published rest
  end.

(** The gauge children a scrape in state [st] hands to the encoder. *)
Definition rendered_children (st : state) : pydict :=
  set_gauges (stack_gauge st) (stack_cache st).

Definition aborted (o : outcome) : Prop :=
  match o with
  | Aborted _ => True
  | Published _ => False
  end.

(** A reply on which [api_call] raises. *)
Definition api_call_raises {B} (r : reply B) : bool :=
  match r with
  | NoResponse => true
  | Replied status_code body =>
      (((400 <=? status_code) && (status_code <? 600))
       || match body with None => true | Some _ => false end)%bool
  end.

(** A reply that sends the retry loop to [get_token]. *)
Definition auth_failure {B} (r : reply B) : bool :=
  match r with
  | NoResponse => false
  | Replied status_code _ => ((status_code =? 403) || (status_code =? 401))%bool
  end.

(** A reply on which [get_token] raises. *)
Definition get_token_raises (r : reply token_body) : bool :=
  match r with
  | NoResponse => true
  | Replied status_code body =>
      (((400 <=? status_code) && (status_code <? 600))
       || match body with
          | None => true
          | Some b => match access_token b with None => true | Some _ => false end
          end)%bool
  end.

(** Attempt [n] of page discovery fails and the loop goes on to the next
    one: [api_call] raises and, when that sends the handler to [get_token],
    the login succeeds. *)
Definition retried (w : world) (n : nat) : Prop :=
  ∀ req, api_call_raises (apps_reply w n req) = true
         ∧ (auth_failure (apps_reply w n req) = true →
            ∀ req', get_token_raises (token_reply w n req') = false).

(** Attempt [n] is answered 401 or 403 and the login it triggers raises. *)
Definition relogin_fails (w : world) (n : nat) : Prop :=
  ∀ req, auth_failure (apps_reply w n req) = true
         ∧ get_token_raises (token_reply w n req) = true.

Definition is_get (e : effect) : bool :=
  match e with
  | Get _ => true
  | _ => false
  end.

(** The GET requests in a log. *)
Definition gets (l : list effect) : nat := length (List.filter is_get l).

(** Every request of a log went out with the given [verify] argument. *)
Definition request_of (e : effect) : option request :=
  match e with
  | Get r | Post r => Some r
  | Sleep _ => None
  end.

Definition requests (l : list effect) : list request := omap request_of l.

(** The effects the refresh thread can produce under a configuration. *)
Definition sent_by (cfg : config) (e : effect) : Prop :=
  match e with
  | Sleep _ => True
  | Get r => ∃ token url, r = api_call_request cfg token url
  | Post r => r = get_token_request cfg
  end.

(** The [try] block up to, and without, the assignment of [stack_cache]. *)
Definition crawl (cfg : config) (valid_stacks : list string) (w : world) : M pydict :=
  apps_count ← page_discovery cfg w 5;
  pagination ← subscript (pagination apps_count);
  apps_count ← subscript (total_pages pagination);
  responses ← fetch_all cfg w (page_url cfg <$> seqZ 1 apps_count);
  mret (aggregate cfg valid_stacks responses).

(** A property of the state that a computation keeps. *)
Definition preserves {A} (I : state → Prop) (m : M A) : Prop :=
  ∀ st, I st → I (m st).2.

(** ** Sample data *)

Definition app_with_stack (s : string) : app_t :=
  App (Some (Lifecycle (Some (LifecycleData (Some s))))).

Definition page_of_stacks (stacks : list string) : apps_page :=
  AppsPage (Some (Pagination (Some 2))) (Some (map app_with_stack stacks)).

Definition sample_config : config :=
  {| CF_API_URL := "https://api.example.com";
     CF_UAA_URL := "https://uaa.example.com";
     CF_USERNAME := "admin";
     CF_PASSWORD := "secret";
     SCRAPE_INTERVAL := 300;
     SKIP_SSL_VALIDATION := false;
     INCLUDE_INVALID_STACKS := false |}.

Definition sample_valid_stacks : list string := ["cflinuxfs4"; "windows2016"].

Definition sample_page1 : apps_page :=
  page_of_stacks ["cflinuxfs4"; "cflinuxfs4"; "bogus-stack"].

Definition sample_page2 : apps_page :=
  page_of_stacks ["windows2016"; "cflinuxfs4"].

(** The same two pages, page 2 first and the records of each reordered. *)
Definition sample_page1_reordered : apps_page :=
  page_of_stacks ["cflinuxfs4"; "bogus-stack"; "cflinuxfs4"].

Definition sample_page2_reordered : apps_page :=
  page_of_stacks ["cflinuxfs4"; "windows2016"].

(** Nothing answers. *)
Definition world_down : world :=
  World (fun _ _ => NoResponse) (fun _ _ => NoResponse) (fun _ => NoResponse).

(** The first attempt times out, the second is answered 401 and the login
    it triggers is answered 500. *)
Definition world_relogin_500 : world :=
  World (fun n _ => if (n <? 1)%nat then NoResponse else Replied 401 None)
        (fun _ _ => Replied 500 None)
        (fun _ => NoResponse).

(** Everything answers; page 1 and page 2 are the sample pages. *)
Definition world_up : world :=
  World (fun _ _ => Replied 200 (Some sample_page1))
        (fun _ _ => Replied 200 (Some (TokenBody (Some "fresh-token"))))
        (fun req =>
           if String.eqb (url req) "https://api.example.com/v3/apps?page=1&per_page=50"
           then Replied 200 (Some sample_page1)
           else Replied 200 (Some sample_page2)).

(** A registry that still holds a child for a stack no longer in the cache. *)
Definition sample_state : state :=
  {| stack_cache := [("cflinuxfs4", 3)];
     CF_AUTH_TOKEN := "token";
     stack_gauge := [("cflinuxfs3", 7); ("cflinuxfs4", 2)];
     log := [] |}.

(** ** Further vocabulary *)

(** The body [api_call] returns on a reply, if it returns. *)
Definition reply_body {B} (r : reply B) : option B :=
  match r with
  | NoResponse => None
  | Replied status_code body =>
      if ((400 <=? status_code) && (status_code <? 600))%bool then None else body
  end.

Definition is_post (e : effect) : bool :=
  match e with
  | Post _ => true
  | _ => false
  end.

(** The POST requests in a log. *)
Definition posts (l : list effect) : nat := length (List.filter is_post l).

(** The seconds slept in a log. *)
Fixpoint slept (l : list effect) : Z :=
  match l with
  | [] => 0
  | Sleep seconds :: rest => seconds + slept rest
  | _ :: rest => slept rest
  end.

(** The applications of a list that are counted under a stack. *)
Definition count_of (cfg : config) (valid_stacks : list string) (s : string)
    (apps : list app_t) : Z :=
  Z.of_nat (length (filter (fun app => counted cfg valid_stacks app = Some s) apps)).

(** The applications of a list that are counted at all. *)
Definition count_all (cfg : config) (valid_stacks : list string) (apps : list app_t) : Z :=
  Z.of_nat (length (filter (fun app => is_Some (counted cfg valid_stacks app)) apps)).

(** The sum of the counts of an aggregate. *)
Definition total (d : pydict) : Z := foldr (fun item acc => item.2 + acc) 0 d.

(** An event that is a pass of the refresh loop. *)
Definition is_pass (ev : event) : bool :=
  match ev with
  | Pass _ => true
  | Scrape => false
  end.

(** Two states that differ at most in the gauge. *)
Definition same_but_gauge (s s' : state) : Prop :=
  stack_cache s = stack_cache s'
  ∧ CF_AUTH_TOKEN s = CF_AUTH_TOKEN s'
  ∧ log s = log s'.

(** A computation whose result and effects do not depend on the gauge. *)
Definition ignores_gauge {A} (m : M A) : Prop :=
  ∀ s s', same_but_gauge s s' →
          (m s).1 = (m s').1 ∧ same_but_gauge (m s).2 (m s').2.

(** The outcomes of the passes of a run, oldest first. *)
Fixpoint pass_outcomes (obs : list observation) : list outcome :=
  match obs with
  | [] => []
  | PassDone o :: rest => o :: pass_outcomes rest
  | Served _ :: rest => pass_outcomes rest
  end.


(** ** Further sample data *)

Definition sample_environ : PyDict.t string :=
  [("CF_API_URL", "api.example.com"); ("CF_USERNAME", "admin"); ("CF_PASSWORD", "secret")].

(** The same environment with invalid stacks included. *)
Definition sample_environ_include : PyDict.t string :=
  sample_environ ++ [("INCLUDE_INVALID_STACKS", "True")].

(** An environment whose password is set, but empty. *)
Definition sample_environ_empty_password : PyDict.t string :=
  [("CF_API_URL", "api.example.com"); ("CF_USERNAME", "admin"); ("CF_PASSWORD", "")].

(** A scheme parser that finds a scheme in the URLs starting with [http]. *)
Definition sample_scheme (u : string) : string :=
  if String.prefix "http" u then "http" else "".

Definition sample_startup_world : startup_world :=
  StartupWorld
    (fun _ => Replied 200 (Some (InfoBody (Some (Links (Some (UaaLink (Some "https://uaa.example.com"))))))))
    (fun _ => Replied 200 (Some (TokenBody (Some "first-token"))))
    (fun _ => Replied 200 (Some (StackList.Make (Some [StackResource (Some "cflinuxfs4");
                                                      StackResource (Some "windows2016")])))).

Definition sample_config_include : config :=
  {| CF_API_URL := "https://api.example.com";
     CF_UAA_URL := "https://uaa.example.com";
     CF_USERNAME := "admin";
     CF_PASSWORD := "secret";
     SCRAPE_INTERVAL := 300;
     SKIP_SSL_VALIDATION := false;
     INCLUDE_INVALID_STACKS := true |}.

(** A page whose applications carry no usable stack: no lifecycle, no data,
    no stack, an empty stack. *)
Definition sample_page_no_stack : apps_page :=
  AppsPage None
    (Some [App None; App (Some (Lifecycle None));
           App (Some (Lifecycle (Some (LifecycleData None))));
           app_with_stack ""]).

(** The first attempt is answered 401 and the login succeeds; the second
    attempt is answered. *)
Definition world_relogin_ok : world :=
  World (fun n _ => if (n <? 1)%nat then Replied 401 None else Replied 200 (Some sample_page1))
        (fun _ _ => Replied 200 (Some (TokenBody (Some "fresh-token"))))
        (fun req =>
           if String.eqb (url req) "https://api.example.com/v3/apps?page=1&per_page=50"
           then Replied 200 (Some sample_page1)
           else Replied 200 (Some sample_page2)).


(** Discovery is answered by a body without [pagination]. *)
Definition world_no_pagination : world :=
  World (fun _ _ => Replied 200 (Some (AppsPage None (Some []))))
        (fun _ _ => NoResponse)
        (fun _ => NoResponse).

(** Discovery reports no page at all. *)
Definition world_zero_pages : world :=
  World (fun _ _ => Replied 200 (Some (AppsPage (Some (Pagination (Some 0))) (Some []))))
        (fun _ _ => NoResponse)
        (fun _ => NoResponse).

(** ** Scrapes that overlap *)













(** ** The retry loop on a body that may equal 0 *)

(** What [api_call(apps_endpoint)] hands to the loop of lines 147-174: a
    JSON object, or a JSON value equal to [0] ([0], [0.0], [false]), the
    only bodies for which the loop condition [apps_count == 0] holds.  The
    bodies of the worlds above are objects. *)
Inductive discovery_body : Type :=
  | ObjectBody (page : apps_page)
  | ZeroBody.

(** The servers seen by the loop; the answers to the requests for the
    application list and to the logins are indexed by the number of
    requests for the application list made before. *)
Record loop_world : Type := LoopWorld {
  loop_apps_reply : nat -> request -> reply discovery_body;
  loop_token_reply : nat -> request -> reply token_body;
  loop_page_reply : request -> reply apps_page
}.

(** The handler of lines 153-174, as [on_discovery_error]. *)
Definition on_loop_error (cfg : config) (lw : loop_world) (calls : nat) (err : exn) : M unit :=
  match err with
  | RequestException (Some status_code) =>
      if ((status_code =? 403) || (status_code =? 401))%bool
      then get_token cfg (loop_token_reply lw calls);; sleep 5
      else sleep 5
  | _ => sleep 5
  end.

(** The [while apps_count == 0] loop, lines 147-174, run for a number of
    iterations: [None] when the loop is still running after them.  A body
    equal to [0] leaves the condition true, and [retries] as it is: only
    the handlers add to it. *)
Fixpoint discovery_loop (cfg : config) (lw : loop_world) (iterations calls retries : nat)
    : M (option apps_page) :=
  match iterations with
  | O => mret None
  | S iterations' =>
      if (5 <=? retries)%nat then raise Exception
      else fun st =>
        match api_call cfg (loop_apps_reply lw calls) (apps_endpoint cfg) st with
        | (Returned (ObjectBody page), st') => (Returned (Some page), st')
        | (Returned ZeroBody, st') =>
            discovery_loop cfg lw iterations' (S calls) retries st'
        | (Raised err, st') =>
            (on_loop_error cfg lw calls err;;
             discovery_loop cfg lw iterations' (S calls) (S retries)) st'
        end
  end.

(** The answers read as objects; a body equal to [0] is none. *)
Definition as_object (r : reply discovery_body) : reply apps_page :=
  match r with
  | NoResponse => NoResponse
  | Replied status_code body =>
      Replied status_code
        (match body with
         | Some (ObjectBody page) => Some page
         | _ => None
         end)
  end.

Definition typed (lw : loop_world) : world :=
  World (fun n req => as_object (loop_apps_reply lw n req))
        (loop_token_reply lw)
        (loop_page_reply lw).

(** A world whose bodies are objects, seen by the loop. *)
Definition untyped (w : world) : loop_world :=
  LoopWorld
    (fun n req =>
       match apps_reply w n req with
       | NoResponse => NoResponse
       | Replied status_code body => Replied status_code (ObjectBody <$> body)
       end)
    (token_reply w)
    (page_reply w).

(** The [try] block of one pass, lines 142-200, with that loop. *)
Definition refresh_loop (cfg : config) (valid_stacks : list string) (lw : loop_world)
    (iterations : nat) : M (option pydict) :=
  found ← discovery_loop cfg lw iterations 0 0;
  match found with
  | None => mret None
  | Some apps_count =>
      pagination ← subscript (pagination apps_count);
      apps_count ← subscript (total_pages pagination);
      let all_urls := page_url cfg <$> seqZ 1 apps_count in
      responses ← fetch_all cfg (typed lw) all_urls;
      let stack_counts := aggregate cfg valid_stacks responses in
      write_stack_cache stack_counts;;
      mret (Some stack_counts)
  end.

(** One pass of [while True], lines 141-208, with that loop: [None] when
    the pass is still in the loop after the iterations. *)
Definition pass_loop (cfg : config) (valid_stacks : list string) (lw : loop_world)
    (iterations : nat) (st : state) : option (outcome * state) :=
  match refresh_loop cfg valid_stacks lw iterations st with
  | (Returned None, _) => None
  | (Returned (Some stack_counts), st') =>
      Some (Published stack_counts, (sleep (SCRAPE_INTERVAL cfg) st').2)
  | (Raised err, st') =>
      Some (Aborted err, (sleep (SCRAPE_INTERVAL cfg) st').2)
  end.

(** No request for the application list is answered by a body equal to 0. *)
Definition never_zero (lw : loop_world) : Prop :=
  ∀ n req, reply_body (loop_apps_reply lw n req) ≠ Some ZeroBody.

(** Every request for the application list is answered by a body equal to 0. *)
Definition always_zero (lw : loop_world) : Prop :=
  ∀ n req, reply_body (loop_apps_reply lw n req) = Some ZeroBody.

(** The application list is answered [0], whatever is asked. *)
Definition loop_world_zero : loop_world :=
  LoopWorld (fun _ _ => Replied 200 (Some ZeroBody))
            (fun _ _ => NoResponse)
            (fun _ => NoResponse).

(** * Properties *)

(** ** Dictionaries *)

Section pydict_facts.
Context {V : Type}.
Implicit Types (d : PyDict.t V) (k : string) (v : V).

Lemma get_setitem_eq d k v : PyDict.get (PyDict.setitem d k v) k = Some v.
Proof.
  induction d as [|[k' v'] d IH]; simpl.
  - by rewrite String.eqb_refl.
  - destruct (String.eqb k k') eqn:E; simpl; rewrite E; [done | exact IH].
Qed.

Lemma get_setitem_ne d k k' v :
  k ≠ k' → PyDict.get (PyDict.setitem d k v) k' = PyDict.get d k'.
Proof.
  intros Hne. induction d as [|[k0 v0] d IH]; simpl.
  - destruct (String.eqb k' k) eqn:E; [|done].
    apply String.eqb_eq in E. congruence.
  - destruct (String.eqb k k0) eqn:E; simpl.
    + apply String.eqb_eq in E. subst k0.
      destruct (String.eqb k' k) eqn:E'; [|done].
      apply String.eqb_eq in E'. congruence.
    + by rewrite IH.
Qed.

Lemma setitem_id d k v : PyDict.get d k = Some v → PyDict.setitem d k v = d.
Proof.
  induction d as [|[k0 v0] d IH]; simpl; [done|].
  destruct (String.eqb k k0) eqn:E.
  - by intros [= ->].
  - intros H. by rewrite IH.
Qed.

Lemma setitem_overwrite d k v v' :
  PyDict.setitem (PyDict.setitem d k v) k v' = PyDict.setitem d k v'.
Proof.
  induction d as [|[k0 v0] d IH]; simpl.
  - by rewrite String.eqb_refl.
  - destruct (String.eqb k k0) eqn:E; simpl; rewrite E; [done | by rewrite IH].
Qed.

Lemma get_None_keys d k : PyDict.get d k = None ↔ k ∉ PyDict.keys d.
Proof.
  unfold PyDict.keys. induction d as [|[k0 v0] d IH]; simpl.
  - split; [intros _; apply not_elem_of_nil | done].
  - rewrite not_elem_of_cons. destruct (String.eqb k k0) eqn:E.
    + apply String.eqb_eq in E. split; [done | intros [? _]; done].
    + apply String.eqb_neq in E. rewrite IH. tauto.
Qed.

Lemma get_Some_elem d k v : PyDict.get d k = Some v → (k, v) ∈ d.
Proof.
  induction d as [|[k0 v0] d IH]; simpl; [done|].
  destruct (String.eqb k k0) eqn:E.
  - apply String.eqb_eq in E. intros [= ->]. subst. left.
  - intros H. right. by apply IH.
Qed.

Lemma keys_setitem_present d k v :
  k ∈ PyDict.keys d → PyDict.keys (PyDict.setitem d k v) = PyDict.keys d.
Proof.
  unfold PyDict.keys. induction d as [|[k0 v0] d IH]; simpl.
  - by intros ?%elem_of_nil.
  - destruct (String.eqb k k0) eqn:E; simpl; [done|].
    apply String.eqb_neq in E. intros [?|Hin]%elem_of_cons; [done|].
    f_equal. by apply IH.
Qed.

Lemma keys_setitem_absent d k v :
  k ∉ PyDict.keys d → PyDict.keys (PyDict.setitem d k v) = PyDict.keys d ++ [k].
Proof.
  unfold PyDict.keys. induction d as [|[k0 v0] d IH]; simpl; [done|].
  rewrite not_elem_of_cons. intros [Hne Hnin].
  apply String.eqb_neq in Hne. rewrite Hne. simpl. f_equal. by apply IH.
Qed.

Lemma elem_of_keys_setitem d k v k' :
  k' ∈ PyDict.keys (PyDict.setitem d k v) ↔ k' = k ∨ k' ∈ PyDict.keys d.
Proof.
  destruct (decide (k ∈ PyDict.keys d)) as [Hin|Hnin].
  - rewrite keys_setitem_present by done. split; [by right | by intros [->|?]].
  - rewrite keys_setitem_absent by done.
    rewrite elem_of_app, list_elem_of_singleton. tauto.
Qed.

Lemma elem_of_setitem d k v k' v' :
  (k', v') ∈ PyDict.setitem d k v → (k' = k ∧ v' = v) ∨ (k', v') ∈ d.
Proof.
  induction d as [|[k0 v0] d IH]; simpl.
  - intros H. apply list_elem_of_singleton in H. injection H as -> ->. by left.
  - destruct (String.eqb k k0) eqn:E.
    + apply String.eqb_eq in E. subst k0.
      intros [Heq|Hin]%elem_of_cons.
      * left. by injection Heq as -> ->.
      * right. by right.
    + intros [Heq|Hin]%elem_of_cons.
      * right. rewrite Heq. left.
      * destruct (IH Hin) as [?|?]; [by left | right; by right].
Qed.

Lemma NoDup_keys_setitem d k v :
  NoDup (PyDict.keys d) → NoDup (PyDict.keys (PyDict.setitem d k v)).
Proof.
  intros Hd. destruct (decide (k ∈ PyDict.keys d)) as [Hin|Hnin].
  - by rewrite keys_setitem_present.
  - rewrite keys_setitem_absent by done.
    apply NoDup_app. split_and!; [done | | apply NoDup_singleton].
    intros x Hx ->%list_elem_of_singleton. done.
Qed.

(** Two writes commute as soon as one of the keys is already there; two
    new keys would be appended in the order of the writes. *)
Lemma setitem_commute d k v k' v' :
  k ≠ k' → k ∈ PyDict.keys d ∨ k' ∈ PyDict.keys d →
  PyDict.setitem (PyDict.setitem d k v) k' v'
  = PyDict.setitem (PyDict.setitem d k' v') k v.
Proof.
  intros Hne. unfold PyDict.keys.
  induction d as [|[k0 v0] d IH]; simpl.
  - intros [?%elem_of_nil|?%elem_of_nil]; done.
  - intros Hin.
    destruct (String.eqb k k0) eqn:E; destruct (String.eqb k' k0) eqn:E'; simpl;
      rewrite ?E, ?E'; try done.
    + apply String.eqb_eq in E, E'. congruence.
    + apply String.eqb_neq in E, E'. rewrite IH; [done|].
      destruct Hin as [Hin|Hin]; apply elem_of_cons in Hin as [?|?];
        simpl in *; try congruence; [by left | by right].
Qed.

(** The finite-map view reads and writes like the dictionary. *)
Lemma to_map_lookup d k : PyDict.to_map d !! k = PyDict.get d k.
Proof.
  unfold PyDict.to_map. induction d as [|[k0 v0] d IH]; simpl; [done|].
  destruct (String.eqb k k0) eqn:E.
  - apply String.eqb_eq in E. subst. by rewrite lookup_insert_eq.
  - apply String.eqb_neq in E. by rewrite lookup_insert_ne.
Qed.

Lemma to_map_setitem d k v :
  PyDict.to_map (PyDict.setitem d k v) = <[k:=v]> (PyDict.to_map d).
Proof.
  apply map_eq. intros k'. rewrite to_map_lookup.
  destruct (decide (k = k')) as [->|Hne].
  - by rewrite get_setitem_eq, lookup_insert_eq.
  - by rewrite get_setitem_ne, lookup_insert_ne, to_map_lookup.
Qed.

End pydict_facts.

(** ** Aggregation *)

Section aggregation.
Context (cfg : config) (valid_stacks : list string).
Implicit Types (d : pydict) (app : app_t) (m : gmap string Z).

Lemma count_app_counted d app :
  count_app cfg valid_stacks d app
  = match counted cfg valid_stacks app with
    | Some s => PyDict.setitem d s (PyDict.get_default d s 0 + 1)
    | None => d
    end.
Proof.
  unfold count_app, counted. destruct (get_stack app) as [s|]; [|done].
  destruct (truthy (Some s)); simpl; [|done].
  by destruct (INCLUDE_INVALID_STACKS cfg || bool_decide (s ∈ valid_stacks))%bool.
Qed.

Lemma counted_nonempty app s : counted cfg valid_stacks app = Some s → s ≠ "".
Proof.
  unfold counted. destruct (get_stack app) as [s'|]; [|done].
  destruct s' as [|c s']; simpl; [done|].
  destruct (_ || _)%bool; [|done]. by intros [= <-].
Qed.

Lemma counted_valid app s :
  INCLUDE_INVALID_STACKS cfg = false →
  counted cfg valid_stacks app = Some s → s ∈ valid_stacks.
Proof.
  intros Hflag. unfold counted. rewrite Hflag.
  destruct (get_stack app) as [s'|]; [|done].
  destruct (truthy (Some s')); simpl; [|done].
  destruct (bool_decide (s' ∈ valid_stacks)) eqn:E; [|done].
  intros [= <-]. by apply bool_decide_eq_true in E.
Qed.

Lemma aggregate_from_records d responses :
  aggregate_from cfg valid_stacks d responses
  = foldl (count_app cfg valid_stacks) d (records responses).
Proof.
  unfold aggregate_from, records. revert d.
  induction responses as [|r rs IH]; intros d; simpl; [done|].
  by rewrite foldl_app, IH.
Qed.

(** An invariant of the items that every counted stack satisfies is an
    invariant of the two loops. *)
Lemma count_app_well_formed d app :
  well_formed d → well_formed (count_app cfg valid_stacks d app).
Proof.
  intros Hd. rewrite count_app_counted.
  destruct (counted cfg valid_stacks app) as [s|] eqn:Hs; [|done].
  apply Forall_forall. intros [k v] Hin.
  apply elem_of_setitem in Hin as [[-> ->]|Hin]; simpl.
  - split; [by eapply counted_nonempty|].
    unfold PyDict.get_default. destruct (PyDict.get d s) as [v0|] eqn:Hget; [|lia].
    apply get_Some_elem in Hget.
    unfold well_formed in Hd. rewrite Forall_forall in Hd.
    specialize (Hd _ Hget). simpl in Hd. lia.
  - unfold well_formed in Hd. rewrite Forall_forall in Hd. exact (Hd _ Hin).
Qed.

Lemma count_app_keys_valid d app :
  INCLUDE_INVALID_STACKS cfg = false →
  keys_valid valid_stacks d → keys_valid valid_stacks (count_app cfg valid_stacks d app).
Proof.
  intros Hflag Hd. rewrite count_app_counted.
  destruct (counted cfg valid_stacks app) as [s|] eqn:Hs; [|done].
  apply Forall_forall. intros k [->|Hin]%elem_of_keys_setitem.
  - by eapply counted_valid.
  - unfold keys_valid in Hd. rewrite Forall_forall in Hd. by apply Hd.
Qed.

Lemma count_app_NoDup d app :
  NoDup (PyDict.keys d) → NoDup (PyDict.keys (count_app cfg valid_stacks d app)).
Proof.
  intros Hd. rewrite count_app_counted.
  destruct (counted cfg valid_stacks app); [by apply NoDup_keys_setitem | done].
Qed.

Lemma foldl_count_app_invariant (P : pydict → Prop) d apps :
  (∀ d' app, P d' → P (count_app cfg valid_stacks d' app)) →
  P d → P (foldl (count_app cfg valid_stacks) d apps).
Proof.
  intros Hstep. revert d. induction apps as [|a apps IH]; intros d Hd; simpl; [done|].
  apply IH, Hstep, Hd.
Qed.

Lemma aggregate_well_formed responses :
  well_formed (aggregate cfg valid_stacks responses).
Proof.
  unfold aggregate. rewrite aggregate_from_records.
  apply (foldl_count_app_invariant well_formed).
  - intros d' app. apply count_app_well_formed.
  - constructor.
Qed.

Lemma aggregate_keys_valid responses :
  INCLUDE_INVALID_STACKS cfg = false →
  keys_valid valid_stacks (aggregate cfg valid_stacks responses).
Proof.
  intros Hflag. unfold aggregate. rewrite aggregate_from_records.
  apply (foldl_count_app_invariant (keys_valid valid_stacks)).
  - intros d' app. by apply count_app_keys_valid.
  - constructor.
Qed.

Lemma aggregate_NoDup responses :
  NoDup (PyDict.keys (aggregate cfg valid_stacks responses)).
Proof.
  unfold aggregate. rewrite aggregate_from_records.
  apply (foldl_count_app_invariant (fun d => NoDup (PyDict.keys d))).
  - intros d' app. apply count_app_NoDup.
  - constructor.
Qed.

(** The finite-map view of the loops. *)
Lemma to_map_count_app d app :
  PyDict.to_map (count_app cfg valid_stacks d app)
  = bump_counted cfg valid_stacks (PyDict.to_map d) app.
Proof.
  rewrite count_app_counted. unfold bump_counted, bump.
  destruct (counted cfg valid_stacks app) as [s|]; [|done].
  rewrite to_map_setitem, to_map_lookup. done.
Qed.

Lemma to_map_foldl_count_app d apps :
  PyDict.to_map (foldl (count_app cfg valid_stacks) d apps)
  = foldl (bump_counted cfg valid_stacks) (PyDict.to_map d) apps.
Proof.
  revert d. induction apps as [|a apps IH]; intros d; simpl; [done|].
  by rewrite IH, to_map_count_app.
Qed.

Lemma bump_commute m a b : bump (bump m a) b = bump (bump m b) a.
Proof.
  destruct (decide (a = b)) as [->|Hne]; [done|].
  unfold bump. rewrite !lookup_insert_ne by done.
  by apply insert_insert_ne.
Qed.

Lemma bump_counted_commute m a b :
  bump_counted cfg valid_stacks (bump_counted cfg valid_stacks m a) b
  = bump_counted cfg valid_stacks (bump_counted cfg valid_stacks m b) a.
Proof.
  unfold bump_counted.
  destruct (counted cfg valid_stacks a), (counted cfg valid_stacks b); try done.
  apply bump_commute.
Qed.

End aggregation.

Lemma foldl_commute_permutation {A B} (f : A → B → A) (l l' : list B) :
  (∀ a x y, f (f a x) y = f (f a y) x) →
  l ≡ₚ l' → ∀ a, foldl f a l = foldl f a l'.
Proof.
  intros Hf Hperm. induction Hperm as [|x l l' _ IH|x y l|l l' l'' _ IH1 _ IH2];
    intros a; simpl.
  - done.
  - apply IH.
  - by rewrite Hf.
  - by rewrite IH1.
Qed.

Lemma records_permutation (responses responses' : list apps_page) :
  responses ≡ₚ responses' → records responses ≡ₚ records responses'.
Proof.
  unfold records. induction 1 as [|x l l' _ IH|x y l|l l' l'' _ IH1 _ IH2]; simpl.
  - done.
  - by rewrite IH.
  - rewrite !(assoc_L (++)). f_equiv. apply Permutation_app_comm.
  - by rewrite IH1.
Qed.

Lemma records_same_records (responses responses' : list apps_page) :
  Forall2 same_records responses responses' → records responses ≡ₚ records responses'.
Proof.
  unfold records. induction 1 as [|p q l l' Hpq _ IH]; simpl; [done|].
  unfold same_records in Hpq. by rewrite Hpq, IH.
Qed.

Lemma aggregate_records_permutation cfg valid_stacks (responses responses' : list apps_page) :
  records responses ≡ₚ records responses' →
  PyDict.to_map (aggregate cfg valid_stacks responses)
  = PyDict.to_map (aggregate cfg valid_stacks responses').
Proof.
  intros Hperm. unfold aggregate. rewrite !aggregate_from_records.
  rewrite !to_map_foldl_count_app.
  apply foldl_commute_permutation; [|done].
  intros m a b. apply bump_counted_commute.
Qed.

(** ** The monad *)

Ltac unfold_monad :=
  unfold mbind, M_bind, mret, M_ret, raise, sleep, perform, read_token; simpl.

Lemma bind_unfold {A B} (m : M A) (f : A → M B) st :
  (m ≫= f) st
  = match m st with
    | (Returned a, st') => f a st'
    | (Raised e, st') => (Raised e, st')
    end.
Proof. reflexivity. Qed.

Lemma api_call_unfold {B} cfg (server : request → reply B) url st :
  api_call cfg server url st
  = let req := api_call_request cfg (CF_AUTH_TOKEN st) url in
    let st' := (perform (Get req) st).2 in
    match server req with
    | NoResponse => (Raised (RequestException None), st')
    | Replied status_code body =>
        if ((400 <=? status_code) && (status_code <? 600))%bool
        then (Raised (RequestException (Some status_code)), st')
        else match body with
             | Some b => (Returned b, st')
             | None => (Raised (RequestException None), st')
             end
    end.
Proof.
  unfold api_call, send, raise_for_status, json. unfold_monad.
  destruct (server _) as [|status_code body]; [done|]. simpl.
  destruct ((400 <=? status_code) && (status_code <? 600))%bool; [done|].
  by destruct body.
Qed.

Lemma get_token_unfold cfg (server : request → reply token_body) st :
  get_token cfg server st
  = let req := get_token_request cfg in
    let st' := (perform (Post req) st).2 in
    match server req with
    | NoResponse => (Raised (RequestException None), st')
    | Replied status_code body =>
        if ((400 <=? status_code) && (status_code <? 600))%bool
        then (Raised (RequestException (Some status_code)), st')
        else match body with
             | None => (Raised (RequestException None), st')
             | Some b =>
                 match access_token b with
                 | None => (Raised KeyError, st')
                 | Some token => (Returned tt, (write_token token st').2)
                 end
             end
    end.
Proof.
  unfold get_token, send, raise_for_status, json, subscript. unfold_monad.
  destruct (server _) as [|status_code body]; [done|]. simpl.
  destruct ((400 <=? status_code) && (status_code <? 600))%bool; [done|].
  destruct body as [b|]; [|done]. simpl. by destruct (access_token b).
Qed.

Lemma refresh_crawl cfg valid_stacks w st :
  refresh cfg valid_stacks w st
  = match crawl cfg valid_stacks w st with
    | (Returned stack_counts, st') =>
        (Returned stack_counts, (write_stack_cache stack_counts st').2)
    | (Raised e, st') => (Raised e, st')
    end.
Proof.
  unfold refresh, crawl. rewrite !bind_unfold.
  destruct (page_discovery cfg w 5 st) as [[page|e] st1]; [|done].
  rewrite !bind_unfold.
  destruct (subscript (pagination page) st1) as [[pg|e] st2]; [|done].
  rewrite !bind_unfold.
  destruct (subscript (total_pages pg) st2) as [[n|e] st3]; [|done].
  rewrite !bind_unfold.
  by destruct (fetch_all cfg w _ st3) as [[responses|e] st4].
Qed.

(** What the refresh thread keeps: any property of the state that survives
    its effects and the replacement of the token. *)
Section preservation.
Context (cfg : config) (I : state → Prop).
Hypothesis I_perform : ∀ e, sent_by cfg e → preserves I (perform e).
Hypothesis I_write_token : ∀ token, preserves I (write_token token).

Lemma preserves_bind {A B} (m : M A) (f : A → M B) :
  preserves I m → (∀ a, preserves I (f a)) → preserves I (m ≫= f).
Proof.
  intros Hm Hf st Hst. rewrite bind_unfold.
  specialize (Hm st Hst). destruct (m st) as [[a|e] st']; simpl in *; [|done].
  by apply Hf.
Qed.

Lemma preserves_try_except {A} (m : M A) (h : exn → M A) :
  preserves I m → (∀ e, preserves I (h e)) → preserves I (try_except m h).
Proof.
  intros Hm Hh st Hst. unfold try_except.
  specialize (Hm st Hst). destruct (m st) as [[a|e] st']; simpl in *; [done|].
  by apply Hh.
Qed.

Lemma preserves_api_call {B} (server : request → reply B) url :
  preserves I (api_call cfg server url).
Proof.
  intros st Hst. rewrite api_call_unfold. cbv zeta.
  assert (I (perform (Get (api_call_request cfg (CF_AUTH_TOKEN st) url)) st).2) as H.
  { apply I_perform; [|done]. simpl. eauto. }
  destruct (server _) as [|status_code body]; [done|].
  destruct ((400 <=? status_code) && (status_code <? 600))%bool; [done|].
  by destruct body.
Qed.

Lemma preserves_get_token (server : request → reply token_body) :
  preserves I (get_token cfg server).
Proof.
  intros st Hst. rewrite get_token_unfold. cbv zeta.
  assert (I (perform (Post (get_token_request cfg)) st).2) as H.
  { by apply I_perform. }
  destruct (server _) as [|status_code body]; [done|].
  destruct ((400 <=? status_code) && (status_code <? 600))%bool; [done|].
  destruct body as [b|]; [|done]. destruct (access_token b); [|done].
  by apply I_write_token.
Qed.

Lemma preserves_sleep seconds : preserves I (sleep seconds).
Proof. by apply I_perform. Qed.

Lemma preserves_on_discovery_error w retries err :
  preserves I (on_discovery_error cfg w retries err).
Proof.
  unfold on_discovery_error. destruct err as [[status_code|]| |];
    try apply preserves_sleep.
  destruct ((status_code =? 403) || (status_code =? 401))%bool;
    [|apply preserves_sleep].
  apply preserves_bind; [apply preserves_get_token|].
  intros _. apply preserves_sleep.
Qed.

Lemma preserves_page_discovery w remaining :
  preserves I (page_discovery cfg w remaining).
Proof.
  induction remaining as [|r IH]; simpl.
  - by intros st Hst.
  - apply preserves_try_except; [apply preserves_api_call|].
    intros e. apply preserves_bind; [apply preserves_on_discovery_error|].
    intros _. apply IH.
Qed.

Lemma preserves_fetch_all w all_urls : preserves I (fetch_all cfg w all_urls).
Proof.
  induction all_urls as [|u rest IH]; simpl.
  - by intros st Hst.
  - apply preserves_bind; [apply preserves_api_call|]. intros response.
    apply preserves_bind; [apply IH|]. intros responses. by intros st Hst.
Qed.

Lemma preserves_subscript {A} (field : option A) : preserves I (subscript field).
Proof. destruct field; by intros st Hst. Qed.

Lemma preserves_crawl valid_stacks w : preserves I (crawl cfg valid_stacks w).
Proof.
  unfold crawl.
  apply preserves_bind; [apply preserves_page_discovery|]. intros page.
  apply preserves_bind; [apply preserves_subscript|]. intros pg.
  apply preserves_bind; [apply preserves_subscript|]. intros n.
  apply preserves_bind; [apply preserves_fetch_all|]. intros responses.
  by intros st Hst.
Qed.

End preservation.

(** ** The gauge *)

Lemma elem_of_keys_set_gauges (children local_cache : pydict) k :
  k ∈ PyDict.keys (set_gauges children local_cache)
  ↔ k ∈ PyDict.keys children ∨ k ∈ PyDict.keys local_cache.
Proof.
  unfold set_gauges. revert children.
  induction local_cache as [|[k0 v0] rest IH]; intros children; simpl.
  - unfold PyDict.keys at 2. simpl. rewrite elem_of_nil. tauto.
  - rewrite IH. unfold gauge_set. simpl. rewrite elem_of_keys_setitem.
    unfold PyDict.keys at 4. simpl. rewrite elem_of_cons. tauto.
Qed.

Lemma get_set_gauges_absent (children local_cache : pydict) label :
  label ∉ PyDict.keys local_cache →
  PyDict.get (set_gauges children local_cache) label = PyDict.get children label.
Proof.
  unfold set_gauges, PyDict.keys. revert children.
  induction local_cache as [|[k0 v0] rest IH]; intros children; simpl; [done|].
  rewrite not_elem_of_cons. intros [Hne Hnin].
  rewrite IH by done. unfold gauge_set. simpl. by apply get_setitem_ne.
Qed.

(** Writing a label into children that already hold every label of a
    dictionary commutes with setting the gauges from that dictionary, up to
    a last write of the same label. *)
Lemma set_gauges_setitem_absorb (local_cache children : pydict) k v :
  (∀ k', k' ∈ PyDict.keys local_cache → k' ∈ PyDict.keys children) →
  PyDict.setitem (set_gauges (PyDict.setitem children k v) local_cache) k v
  = PyDict.setitem (set_gauges children local_cache) k v.
Proof.
  unfold set_gauges. revert children.
  induction local_cache as [|[k1 v1] rest IH]; intros children Hsub; simpl.
  - apply setitem_overwrite.
  - unfold gauge_set at 2 4. simpl.
    assert (k1 ∈ PyDict.keys children) as Hk1.
    { apply Hsub. unfold PyDict.keys. simpl. left. }
    assert (∀ k', k' ∈ PyDict.keys rest →
                  k' ∈ PyDict.keys (PyDict.setitem children k1 v1)) as Hsub'.
    { intros k' Hk'. apply elem_of_keys_setitem. right. apply Hsub.
      unfold PyDict.keys. simpl. by right. }
    destruct (decide (k = k1)) as [->|Hne].
    + by rewrite setitem_overwrite.
    + rewrite (setitem_commute children k v k1 v1) by auto.
      by apply IH.
Qed.

Lemma set_gauges_snoc (children local_cache : pydict) item :
  set_gauges children (local_cache ++ [item])
  = gauge_set (set_gauges children local_cache) item.
Proof. unfold set_gauges. apply foldl_snoc. Qed.

(** Setting the gauges twice from the same dictionary changes nothing the
    second time, not even the order of the children. *)
Lemma set_gauges_idempotent (local_cache children : pydict) :
  set_gauges (set_gauges children local_cache) local_cache
  = set_gauges children local_cache.
Proof.
  revert children. induction local_cache as [|[k v] rest IH] using rev_ind;
    intros children; [done|].
  rewrite !set_gauges_snoc. unfold gauge_set. simpl.
  rewrite set_gauges_setitem_absorb.
  - by rewrite IH.
  - intros k' Hk'. apply elem_of_keys_set_gauges. by right.
Qed.

Lemma to_map_set_gauges (local_cache children : pydict) :
  NoDup (PyDict.keys local_cache) →
  PyDict.to_map (set_gauges children local_cache)
  = PyDict.to_map local_cache ∪ PyDict.to_map children.
Proof.
  unfold set_gauges. revert children.
  induction local_cache as [|[k v] rest IH]; intros children Hnodup; simpl.
  - unfold PyDict.to_map at 2. simpl. by rewrite (left_id_L ∅ (∪)).
  - unfold PyDict.keys in Hnodup. simpl in Hnodup. apply NoDup_cons in Hnodup as [Hk Hrest].
    rewrite IH by done. unfold gauge_set. simpl. rewrite to_map_setitem.
    unfold PyDict.to_map at 3. simpl. rewrite <- insert_union_l.
    rewrite insert_union_r; [done|].
    change (PyDict.to_map rest !! k = None).
    rewrite to_map_lookup. by apply get_None_keys.
Qed.

(** ** One pass of the refresh loop *)

Section one_pass.
Context (cfg : config) (valid_stacks : list string) (w : world).

Lemma iteration_crawl st :
  iteration cfg valid_stacks w st
  = match crawl cfg valid_stacks w st with
    | (Returned stack_counts, st') =>
        (Published stack_counts,
         (sleep (SCRAPE_INTERVAL cfg) (write_stack_cache stack_counts st').2).2)
    | (Raised e, st') => (Aborted e, (sleep (SCRAPE_INTERVAL cfg) st').2)
    end.
Proof.
  unfold iteration. rewrite refresh_crawl.
  by destruct (crawl cfg valid_stacks w st) as [[sc|e] st'].
Qed.

(** The crawl writes neither the cache nor the gauge. *)
Lemma crawl_frame st :
  stack_cache (crawl cfg valid_stacks w st).2 = stack_cache st
  ∧ stack_gauge (crawl cfg valid_stacks w st).2 = stack_gauge st.
Proof.
  apply (preserves_crawl cfg
           (fun s => stack_cache s = stack_cache st ∧ stack_gauge s = stack_gauge st)).
  - by intros e _ s Hs.
  - by intros token s Hs.
  - done.
Qed.

(** What the crawl returns is the aggregate of the pages it fetched. *)
Lemma crawl_returns st stack_counts st' :
  crawl cfg valid_stacks w st = (Returned stack_counts, st') →
  ∃ responses, stack_counts = aggregate cfg valid_stacks responses.
Proof.
  unfold crawl. rewrite bind_unfold.
  destruct (page_discovery cfg w 5 st) as [[page|e] st1]; [|done].
  rewrite bind_unfold.
  destruct (subscript (pagination page) st1) as [[pg|e] st2]; [|done].
  rewrite bind_unfold.
  destruct (subscript (total_pages pg) st2) as [[n|e] st3]; [|done].
  rewrite bind_unfold.
  destruct (fetch_all cfg w _ st3) as [[responses|e] st4]; [|done].
  intros [= <- _]. by exists responses.
Qed.

(** A pass publishes the aggregate of the pages it fetched, or leaves the
    cache as it was; it never writes the gauge. *)
Lemma iteration_spec st :
  stack_gauge (iteration cfg valid_stacks w st).2 = stack_gauge st
  ∧ match (iteration cfg valid_stacks w st).1 with
    | Published stack_counts =>
        stack_cache (iteration cfg valid_stacks w st).2 = stack_counts
        ∧ ∃ responses, stack_counts = aggregate cfg valid_stacks responses
    | Aborted _ =>
        stack_cache (iteration cfg valid_stacks w st).2 = stack_cache st
    end.
Proof.
  rewrite iteration_crawl.
  pose proof (crawl_frame st) as [Hcache Hgauge].
  pose proof (crawl_returns st) as Hret.
  destruct (crawl cfg valid_stacks w st) as [[sc|e] st']; simpl in *.
  - split; [done|]. split; [done|]. by eapply Hret.
  - done.
Qed.

(** Every pass ends with the sleep of a full interval. *)
Lemma iteration_log st :
  ∃ older,
    log (iteration cfg valid_stacks w st).2 = Sleep (SCRAPE_INTERVAL cfg) :: older
    ∧ older = log (crawl cfg valid_stacks w st).2.
Proof.
  rewrite iteration_crawl.
  destruct (crawl cfg valid_stacks w st) as [[sc|e] st']; simpl; eauto.
Qed.

(** A failed attempt that is retried: the loop is back at its head with
    one attempt less to go and one more GET in the log. *)
Lemma discovery_round_retried remaining st :
  retried w (5 - S remaining) →
  ∃ st1,
    page_discovery cfg w (S remaining) st = page_discovery cfg w remaining st1
    ∧ gets (log st1) = S (gets (log st)).
Proof.
  intros Hretried. simpl page_discovery. unfold try_except.
  rewrite api_call_unfold. cbv zeta.
  destruct (Hretried (api_call_request cfg (CF_AUTH_TOKEN st) (apps_endpoint cfg)))
    as [Hraises Hlogin].
  destruct (apps_reply w _ _) as [|status_code body]; simpl in Hraises, Hlogin.
  - eexists. split; [reflexivity|]. reflexivity.
  - destruct ((400 <=? status_code) && (status_code <? 600))%bool eqn:Hcode.
    + rewrite bind_unfold. unfold on_discovery_error.
      destruct ((status_code =? 403) || (status_code =? 401))%bool.
      * rewrite bind_unfold, get_token_unfold. cbv zeta.
        specialize (Hlogin eq_refl (get_token_request cfg)).
        destruct (token_reply w _ _) as [|status_code' body']; simpl in Hlogin; [done|].
        destruct ((400 <=? status_code') && (status_code' <? 600))%bool; [done|].
        destruct body' as [b|]; [|done].
        destruct (access_token b); [|done].
        eexists. split; [reflexivity|]. reflexivity.
      * eexists. split; [reflexivity|]. reflexivity.
    + simpl in Hraises. destruct body; [done|].
      eexists. split; [reflexivity|]. reflexivity.
Qed.

(** A 401 or 403 whose login raises: the exception leaves the loop. *)
Lemma discovery_round_relogin_fails remaining st :
  relogin_fails w (5 - S remaining) →
  ∃ e st1,
    page_discovery cfg w (S remaining) st = (Raised e, st1)
    ∧ e ≠ Exception
    ∧ gets (log st1) = S (gets (log st))
    ∧ ∃ older, log st1 = Post (get_token_request cfg) :: older.
Proof.
  intros Hfails. simpl page_discovery. unfold try_except.
  rewrite api_call_unfold. cbv zeta.
  destruct (Hfails (api_call_request cfg (CF_AUTH_TOKEN st) (apps_endpoint cfg)))
    as [Hauth _].
  destruct (Hfails (get_token_request cfg)) as [_ Hlogin].
  destruct (apps_reply w _ _) as [|status_code body]; simpl in Hauth; [done|].
  assert ((400 <=? status_code) && (status_code <? 600) = true)%bool as ->.
  { apply orb_true_iff in Hauth as [H|H]; apply Z.eqb_eq in H; by subst. }
  rewrite bind_unfold. unfold on_discovery_error. rewrite Hauth.
  rewrite bind_unfold, get_token_unfold. cbv zeta.
  destruct (token_reply w _ _) as [|status_code' body']; simpl in Hlogin.
  - do 2 eexists. split; [reflexivity|]. split; [done|]. split; [reflexivity|].
    eexists. reflexivity.
  - destruct ((400 <=? status_code') && (status_code' <? 600))%bool.
    + do 2 eexists. split; [reflexivity|]. split; [done|]. split; [reflexivity|].
      eexists. reflexivity.
    + simpl in Hlogin. destruct body' as [b|].
      * destruct (access_token b); [done|].
        do 2 eexists. split; [reflexivity|]. split; [done|]. split; [reflexivity|].
        eexists. reflexivity.
      * do 2 eexists. split; [reflexivity|]. split; [done|]. split; [reflexivity|].
        eexists. reflexivity.
Qed.

(** The first [k] attempts, all retried. *)
Lemma discovery_first_rounds (k : nat) st :
  (k ≤ 5)%nat → (∀ n, (n < k)%nat → retried w n) →
  ∃ st1,
    page_discovery cfg w 5 st = page_discovery cfg w (5 - k) st1
    ∧ gets (log st1) = (gets (log st) + k)%nat.
Proof.
  induction k as [|k IH]; intros Hk Hretried.
  - exists st. split; [done|]. lia.
  - destruct IH as (st1 & Heq & Hgets); [lia | intros n Hn; apply Hretried; lia |].
    destruct (discovery_round_retried (5 - S k) st1) as (st2 & Heq2 & Hgets2).
    { replace (5 - S (5 - S k))%nat with k by lia. apply Hretried. lia. }
    exists st2. split; [|lia].
    rewrite Heq. by replace (5 - k)%nat with (S (5 - S k)) by lia.
Qed.

(** When every attempt raises, the loop ends by an exception, whatever the
    logins do. *)
Lemma discovery_exhausted remaining st :
  (∀ n req, (n < 5)%nat → api_call_raises (apps_reply w n req) = true) →
  ∃ e, (page_discovery cfg w remaining st).1 = Raised e.
Proof.
  intros Hraises. revert st. induction remaining as [|r IH]; intros st.
  - by exists Exception.
  - simpl page_discovery. unfold try_except. rewrite api_call_unfold. cbv zeta.
    specialize (Hraises (5 - S r)%nat
                  (api_call_request cfg (CF_AUTH_TOKEN st) (apps_endpoint cfg))
                  ltac:(lia)).
    set (st' := (perform _ st).2).
    assert (∀ e, ∃ e', ((on_discovery_error cfg w (5 - S r) e;;
                         page_discovery cfg w r) st').1 = Raised e') as Hhandler.
    { intros e. rewrite bind_unfold.
      destruct (on_discovery_error cfg w (5 - S r) e st') as [[[]|e'] st'']; [apply IH|].
      by exists e'. }
    destruct (apps_reply w _ _) as [|status_code body]; simpl in Hraises.
    + apply Hhandler.
    + destruct ((400 <=? status_code) && (status_code <? 600))%bool; [apply Hhandler|].
      destruct body; [done|]. apply Hhandler.
Qed.

Lemma crawl_discovery_raised st e st1 :
  page_discovery cfg w 5 st = (Raised e, st1) →
  crawl cfg valid_stacks w st = (Raised e, st1).
Proof. intros H. unfold crawl. by rewrite bind_unfold, H. Qed.

End one_pass.

(** ** Runs of the process *)

Section runs.
Context (cfg : config) (valid_stacks : list string) (generate_latest : pydict → string).

Lemma run_state_invariant (J : state → Prop) evs st :
  (∀ s ev, J s → J (step cfg valid_stacks generate_latest s ev).2) →
  J st → J (run cfg valid_stacks generate_latest st evs).2.
Proof.
  intros Hstep. revert st. induction evs as [|ev evs IH]; intros st Hst; simpl; [done|].
  apply IH, Hstep, Hst.
Qed.

(** A property of every aggregate holds of everything a run publishes. *)
Lemma run_published (P : pydict → Prop) evs st :
  (∀ responses, P (aggregate cfg valid_stacks responses)) →
  Forall P (published (run cfg valid_stacks generate_latest st evs).1).
Proof.
  intros HP. revert st. induction evs as [|ev evs IH]; intros st; simpl; [constructor|].
  destruct ev as [w|]; simpl.
  - pose proof (iteration_spec cfg valid_stacks w st) as [_ Hspec].
    destruct (iteration cfg valid_stacks w st) as [[sc|e] st']; simpl in *.
    + destruct Hspec as [_ [responses ->]]. constructor; [apply HP | apply IH].
    + apply IH.
  - apply IH.
Qed.


Lemma step_cache_invariant (P : pydict → Prop) st ev :
  (∀ responses, P (aggregate cfg valid_stacks responses)) →
  P (stack_cache st) →
  P (stack_cache (step cfg valid_stacks generate_latest st ev).2).
Proof.
  intros HP Hst. destruct ev as [w|]; simpl; [|done].
  pose proof (iteration_spec cfg valid_stacks w st) as [_ Hspec].
  destruct (iteration cfg valid_stacks w st) as [[sc|e] st']; simpl in *.
  - destruct Hspec as [-> [responses ->]]. apply HP.
  - by rewrite Hspec.
Qed.

Lemma keys_valid_set_gauges (children local_cache : pydict) :
  keys_valid valid_stacks children → keys_valid valid_stacks local_cache →
  keys_valid valid_stacks (set_gauges children local_cache).
Proof.
  unfold keys_valid. rewrite !Forall_forall. intros Hc Hl k.
  rewrite elem_of_keys_set_gauges. intros [?|?]; auto.
Qed.

Lemma step_keys_valid st ev :
  INCLUDE_INVALID_STACKS cfg = false →
  keys_valid valid_stacks (stack_cache st) ∧ keys_valid valid_stacks (stack_gauge st) →
  keys_valid valid_stacks (stack_cache (step cfg valid_stacks generate_latest st ev).2)
  ∧ keys_valid valid_stacks (stack_gauge (step cfg valid_stacks generate_latest st ev).2).
Proof.
  intros Hflag [Hcache Hgauge]. split.
  - apply (step_cache_invariant (keys_valid valid_stacks)); [|done].
    intros responses. by apply aggregate_keys_valid.
  - destruct ev as [w|]; simpl.
    + pose proof (iteration_spec cfg valid_stacks w st) as [-> _]. done.
    + by apply keys_valid_set_gauges.
Qed.







End runs.

(** * The claims *)

(** C1.  The claim: TLS verification is performed if and only if the
    skip-verification flag is false, so that the default configuration
    verifies certificates.  The code does the opposite: [api_call] and
    [get_token] pass the flag itself as the [verify] argument, so
    verification is performed exactly when the flag is true, and the flag
    read from an environment without [SKIP_SSL_VERIFY] is false. *)
Theorem C1_verify_is_the_skip_flag :
  SKIP_SSL_VALIDATION_from [] = false
  ∧ (∀ cfg token url,
       tls_verification_performed (api_call_request cfg token url)
       = SKIP_SSL_VALIDATION cfg)
  ∧ (∀ cfg,
       tls_verification_performed (get_token_request cfg) = SKIP_SSL_VALIDATION cfg)
  ∧ tls_verification_performed
      (api_call_request sample_config "token" (apps_endpoint sample_config)) = false
  ∧ tls_verification_performed (get_token_request sample_config) = false.
Proof. split; [by vm_compute | repeat split; reflexivity]. Qed.

(** Every request a pass sends carries the flag as its [verify] argument. *)
Lemma iteration_requests_verify cfg valid_stacks w st :
  Forall (fun r => verify r = SKIP_SSL_VALIDATION cfg) (requests (log st)) →
  Forall (fun r => verify r = SKIP_SSL_VALIDATION cfg)
         (requests (log (iteration cfg valid_stacks w st).2)).
Proof.
  intros Hst. destruct (iteration_log cfg valid_stacks w st) as (older & -> & ->).
  simpl. revert Hst.
  apply (preserves_crawl cfg
           (fun s => Forall (fun r => verify r = SKIP_SSL_VALIDATION cfg) (requests (log s)))).
  - intros [seconds|r|r] Hsent s Hs; simpl in *; [done| |].
    + destruct Hsent as (token & url & ->). by constructor.
    + subst r. by constructor.
  - by intros token s Hs.
Qed.

(** C2.  With filtering enabled and the valid stacks cflinuxfs4 and
    windows2016, the pages with stacks cflinuxfs4, cflinuxfs4, bogus-stack
    and windows2016, cflinuxfs4 aggregate to exactly cflinuxfs4: 3,
    windows2016: 1; bogus-stack is not a key. *)
Theorem C2_scenario_aggregate :
  INCLUDE_INVALID_STACKS sample_config = false
  ∧ aggregate sample_config sample_valid_stacks [sample_page1; sample_page2]
    = [("cflinuxfs4", 3); ("windows2016", 1)]
  ∧ PyDict.to_map (aggregate sample_config sample_valid_stacks [sample_page1; sample_page2])
    = {[ "cflinuxfs4" := 3; "windows2016" := 1 ]}
  ∧ PyDict.get (aggregate sample_config sample_valid_stacks [sample_page1; sample_page2])
      "bogus-stack" = None.
Proof. by vm_compute. Qed.

(** C3.  When the page-discovery request fails on five consecutive attempts
    (no response, an error status, 401/403 included, or a body that does not
    parse), the pass aborts without publishing, [stack_cache] is what it was
    before the pass, and the pass ends with the sleep of the full interval. *)
Theorem C3_discovery_exhausted_aborts cfg valid_stacks w st :
  (∀ n req, (n < 5)%nat → api_call_raises (apps_reply w n req) = true) →
  aborted (iteration cfg valid_stacks w st).1
  ∧ stack_cache (iteration cfg valid_stacks w st).2 = stack_cache st
  ∧ ∃ older, log (iteration cfg valid_stacks w st).2 = Sleep (SCRAPE_INTERVAL cfg) :: older.
Proof.
  intros Hraises.
  destruct (discovery_exhausted cfg w 5 st Hraises) as [e He].
  destruct (iteration_log cfg valid_stacks w st) as (older & Hlog & _).
  pose proof (iteration_spec cfg valid_stacks w st) as [_ Hspec].
  assert (aborted (iteration cfg valid_stacks w st).1) as Haborted.
  { rewrite iteration_crawl.
    destruct (page_discovery cfg w 5 st) as [r st1] eqn:Hdisc. simpl in He. subst r.
    by rewrite (crawl_discovery_raised cfg valid_stacks w st e st1). }
  split; [done|]. split; [|by exists older].
  by destruct (iteration cfg valid_stacks w st).1.
Qed.

Lemma C3_witness :
  aborted (iteration sample_config sample_valid_stacks world_down sample_state).1
  ∧ stack_cache (iteration sample_config sample_valid_stacks world_down sample_state).2
    = stack_cache sample_state
  ∧ ∃ older, log (iteration sample_config sample_valid_stacks world_down sample_state).2
             = Sleep (SCRAPE_INTERVAL sample_config) :: older.
Proof.
  apply (C3_discovery_exhausted_aborts sample_config sample_valid_stacks world_down sample_state).
  intros n req _. reflexivity.
Defined.



(** C5.  Every aggregate ever stored in [stack_cache] is well-formed: its
    keys are non-empty strings and its values non-negative integers.  This
    holds of the initial empty aggregate, of the cache after any run, and
    of every aggregate a pass of the run published. *)
Theorem C5_snapshot_well_formed cfg valid_stacks generate_latest token evs :
  let r := run cfg valid_stacks generate_latest (initial_state token) evs in
  well_formed (stack_cache (initial_state token))
  ∧ well_formed (stack_cache r.2)
  ∧ Forall well_formed (published r.1).
Proof.
  intros r. split; [constructor|]. split.
  - subst r.
    apply (run_state_invariant cfg valid_stacks generate_latest
             (fun s => well_formed (stack_cache s))); [|constructor].
    intros s ev Hs. apply step_cache_invariant; [|done].
    apply aggregate_well_formed.
  - apply run_published, aggregate_well_formed.
Qed.

(** C6.  With filtering of invalid stacks enabled, after any run every key
    of [stack_cache], every label of the gauge, every label a scrape would
    render and every key of every aggregate published during the run is a
    member of the valid-stack list. *)
Theorem C6_labels_are_valid_stacks cfg valid_stacks generate_latest token evs :
  INCLUDE_INVALID_STACKS cfg = false →
  let r := run cfg valid_stacks generate_latest (initial_state token) evs in
  keys_valid valid_stacks (stack_cache r.2)
  ∧ keys_valid valid_stacks (stack_gauge r.2)
  ∧ keys_valid valid_stacks (rendered_children r.2)
  ∧ Forall (keys_valid valid_stacks) (published r.1).
Proof.
  intros Hflag r.
  assert (keys_valid valid_stacks (stack_cache r.2)
          ∧ keys_valid valid_stacks (stack_gauge r.2)) as [Hcache Hgauge].
  { subst r.
    apply (run_state_invariant cfg valid_stacks generate_latest
             (fun s => keys_valid valid_stacks (stack_cache s)
                       ∧ keys_valid valid_stacks (stack_gauge s))).
    - intros s ev. by apply step_keys_valid.
    - split; constructor. }
  split; [done|]. split; [done|]. split.
  - by apply keys_valid_set_gauges.
  - apply run_published. intros responses. by apply aggregate_keys_valid.
Qed.

Lemma C6_witness :
  let r := run sample_config sample_valid_stacks (fun _ => "")
             (initial_state "token") [Pass world_up; Scrape; Pass world_down; Scrape] in
  keys_valid sample_valid_stacks (stack_cache r.2)
  ∧ keys_valid sample_valid_stacks (stack_gauge r.2)
  ∧ keys_valid sample_valid_stacks (rendered_children r.2)
  ∧ Forall (keys_valid sample_valid_stacks) (published r.1).
Proof.
  apply (C6_labels_are_valid_stacks sample_config sample_valid_stacks (fun _ => "")
           "token" [Pass world_up; Scrape; Pass world_down; Scrape]).
  reflexivity.
Defined.

(** C7.  Aggregation does not depend on the order of the pages nor on the
    order of the records within a page: permuting the pages and the records
    of each page yields the same mapping from stack to count. *)
Theorem C7_aggregate_order_independent cfg valid_stacks
    (responses shuffled responses' : list apps_page) :
  responses ≡ₚ shuffled →
  Forall2 same_records shuffled responses' →
  PyDict.to_map (aggregate cfg valid_stacks responses)
  = PyDict.to_map (aggregate cfg valid_stacks responses').
Proof.
  intros Hpages Hwithin. apply aggregate_records_permutation.
  etrans; [by apply records_permutation | by apply records_same_records].
Qed.

Lemma C7_witness :
  PyDict.to_map (aggregate sample_config sample_valid_stacks [sample_page1; sample_page2])
  = PyDict.to_map (aggregate sample_config sample_valid_stacks
                     [sample_page2_reordered; sample_page1_reordered]).
Proof.
  apply (C7_aggregate_order_independent sample_config sample_valid_stacks
           [sample_page1; sample_page2] [sample_page2; sample_page1]
           [sample_page2_reordered; sample_page1_reordered]).
  - apply perm_swap.
  - constructor; [apply perm_swap|].
    constructor; [apply perm_skip, perm_swap|].
    constructor.
Defined.

(** C8.  Publishing an aggregate and rendering, then publishing the same
    aggregate again and rendering, gives the same response both times, from
    any state of the gauge; the second render leaves the gauge as the first
    one left it. *)
Theorem C8_republish_renders_the_same generate_latest (stack_counts : pydict) st :
  let first := metrics generate_latest (write_stack_cache stack_counts st).2 in
  let second := metrics generate_latest (write_stack_cache stack_counts first.2).2 in
  first.1 = second.1 ∧ stack_gauge second.2 = stack_gauge first.2.
Proof.
  intros first second. subst first second. simpl.
  by rewrite set_gauges_idempotent.
Qed.

(** C9.  A scrape writes only the gauge children whose label is a key of the
    cache: a label that is not a key of the cache keeps the value it had, or
    stays absent, and the body rendered is that of the gauge so updated. *)
Theorem C9_absent_labels_keep_their_value generate_latest st label :
  PyDict.get (stack_cache st) label = None →
  PyDict.get (stack_gauge (metrics generate_latest st).2) label
  = PyDict.get (stack_gauge st) label
  ∧ response_body (metrics generate_latest st).1
    = generate_latest (stack_gauge (metrics generate_latest st).2).
Proof.
  intros Habsent. simpl. split; [|done].
  apply get_set_gauges_absent. by apply get_None_keys.
Qed.

Lemma C9_witness :
  PyDict.get (stack_gauge (metrics (fun _ => "") sample_state).2) "cflinuxfs3"
  = PyDict.get (stack_gauge sample_state) "cflinuxfs3"
  ∧ response_body (metrics (fun _ => "") sample_state).1
    = (fun _ => "") (stack_gauge (metrics (fun _ => "") sample_state).2).
Proof.
  apply (C9_absent_labels_keep_their_value (fun _ => "") sample_state "cflinuxfs3").
  reflexivity.
Defined.

(** C10.  When, after [k] retried attempts, an attempt is answered 401 or
    403 and the login it triggers raises, the pass aborts on the login's
    exception: no further attempt is made ([k + 1] GETs in all), the failed
    POST is the last effect before the sleep of the full interval, and
    [stack_cache] is what it was. *)
Theorem C10_failed_relogin_aborts cfg valid_stacks w st (k : nat) :
  (k < 5)%nat →
  (∀ n, (n < k)%nat → retried w n) →
  relogin_fails w k →
  (∃ err, (iteration cfg valid_stacks w st).1 = Aborted err ∧ err ≠ Exception)
  ∧ stack_cache (iteration cfg valid_stacks w st).2 = stack_cache st
  ∧ gets (log (iteration cfg valid_stacks w st).2) = (gets (log st) + k + 1)%nat
  ∧ ∃ older, log (iteration cfg valid_stacks w st).2
             = Sleep (SCRAPE_INTERVAL cfg) :: Post (get_token_request cfg) :: older.
Proof.
  intros Hk Hretried Hfails.
  destruct (discovery_first_rounds cfg w k st) as (st1 & Heq & Hgets); [lia | done |].
  destruct (discovery_round_relogin_fails cfg w (5 - S k) st1)
    as (e & st2 & Hraise & He & Hgets2 & older & Hlog).
  { by replace (5 - S (5 - S k))%nat with k by lia. }
  replace (S (5 - S k)) with (5 - k)%nat in Hraise by lia.
  rewrite <- Heq in Hraise.
  apply (crawl_discovery_raised cfg valid_stacks) in Hraise.
  pose proof (crawl_frame cfg valid_stacks w st) as [Hcache _].
  rewrite iteration_crawl, Hraise in *. simpl in *.
  split; [by exists e|]. split; [done|]. split.
  - unfold gets in *. simpl. lia.
  - exists older. by rewrite Hlog.
Qed.

Lemma C10_witness :
  (∃ err, (iteration sample_config sample_valid_stacks world_relogin_500 sample_state).1
          = Aborted err ∧ err ≠ Exception)
  ∧ stack_cache (iteration sample_config sample_valid_stacks world_relogin_500 sample_state).2
    = stack_cache sample_state
  ∧ gets (log (iteration sample_config sample_valid_stacks world_relogin_500 sample_state).2)
    = (gets (log sample_state) + 1 + 1)%nat
  ∧ ∃ older,
      log (iteration sample_config sample_valid_stacks world_relogin_500 sample_state).2
      = Sleep (SCRAPE_INTERVAL sample_config) :: Post (get_token_request sample_config) :: older.
Proof.
  apply (C10_failed_relogin_aborts sample_config sample_valid_stacks
           world_relogin_500 sample_state 1).
  - lia.
  - intros n Hn req. assert (n = 0%nat) as -> by lia. split; [reflexivity | discriminate].
  - intros req. split; reflexivity.
Defined.

(** * Further properties *)

(** ** What the aggregate counts *)

Section counting.
Context (cfg : config) (valid_stacks : list string).
Implicit Types (d : pydict) (app : app_t) (s : string).

Lemma counted_iff app s :
  counted cfg valid_stacks app = Some s
  ↔ get_stack app = Some s ∧ s ≠ ""
    ∧ (INCLUDE_INVALID_STACKS cfg = true ∨ s ∈ valid_stacks).
Proof.
  unfold counted. destruct (get_stack app) as [s'|].
  2: { split; [done | by intros [? _]]. }
  destruct s' as [|c s']; simpl.
  { split; [done | intros ([= <-] & Hne & _); done]. }
  destruct (INCLUDE_INVALID_STACKS cfg); simpl.
  - split.
    + intros [= <-]. split; [done|]. split; [done | by left].
    + by intros ([= <-] & _).
  - destruct (bool_decide (String c s' ∈ valid_stacks)) eqn:E.
    + apply bool_decide_eq_true in E. split.
      * intros [= <-]. split; [done|]. split; [done | by right].
      * by intros ([= <-] & _).
    + apply bool_decide_eq_false in E. split; [done|].
      intros ([= <-] & _ & [?|?]); done.
Qed.

Lemma count_of_nil s : count_of cfg valid_stacks s [] = 0.
Proof. reflexivity. Qed.

Lemma count_of_cons s app apps :
  count_of cfg valid_stacks s (app :: apps)
  = (if decide (counted cfg valid_stacks app = Some s) then 1 else 0)
    + count_of cfg valid_stacks s apps.
Proof.
  unfold count_of. rewrite filter_cons.
  destruct (decide (counted cfg valid_stacks app = Some s)); simpl length; lia.
Qed.

Lemma count_of_nonneg s apps : 0 ≤ count_of cfg valid_stacks s apps.
Proof. unfold count_of. lia. Qed.

Lemma count_of_pos s apps :
  0 < count_of cfg valid_stacks s apps
  ↔ ∃ app, app ∈ apps ∧ counted cfg valid_stacks app = Some s.
Proof.
  induction apps as [|a apps IH].
  - rewrite count_of_nil. split; [lia|]. intros (app & Hin & _). by apply elem_of_nil in Hin.
  - rewrite count_of_cons. pose proof (count_of_nonneg s apps).
    destruct (decide (counted cfg valid_stacks a = Some s)) as [Ha|Ha].
    + split; [|lia]. intros _. exists a. split; [left | done].
    + rewrite Z.add_0_l, IH. split.
      * intros (app & Hin & Hc). exists app. split; [by right | done].
      * intros (app & Hin & Hc). apply elem_of_cons in Hin as [->|Hin]; [done|].
        by exists app.
Qed.

Lemma get_default_get d s : PyDict.get_default d s 0 = default 0 (PyDict.get d s).
Proof. unfold PyDict.get_default. by destruct (PyDict.get d s). Qed.

(** The loop adds to each key the number of applications counted under it. *)
Lemma get_foldl_count_app apps d s :
  PyDict.get (foldl (count_app cfg valid_stacks) d apps) s
  = if count_of cfg valid_stacks s apps =? 0 then PyDict.get d s
    else Some (PyDict.get_default d s 0 + count_of cfg valid_stacks s apps).
Proof.
  revert d. induction apps as [|a apps IH]; intros d; [done|].
  simpl foldl. rewrite IH, count_of_cons, count_app_counted.
  pose proof (count_of_nonneg s apps) as Hn.
  destruct (counted cfg valid_stacks a) as [s'|] eqn:Hc.
  - destruct (decide (Some s' = Some s)) as [[= ->]|Hne].
    + unfold PyDict.get_default. rewrite !get_setitem_eq.
      destruct (Z.eqb_spec (count_of cfg valid_stacks s apps) 0) as [Hz|Hz];
        destruct (Z.eqb_spec (1 + count_of cfg valid_stacks s apps) 0); try lia;
        f_equal; lia.
    + assert (s' ≠ s) by congruence.
      rewrite get_setitem_ne by done. unfold PyDict.get_default.
      rewrite get_setitem_ne by done. by rewrite Z.add_0_l.
  - destruct (decide (None = Some s)); [done|]. by rewrite Z.add_0_l.
Qed.

Lemma total_setitem d s v :
  total (PyDict.setitem d s v) = total d + v - PyDict.get_default d s 0.
Proof.
  unfold PyDict.get_default. induction d as [|[k0 v0] d IH]; simpl.
  - lia.
  - destruct (String.eqb s k0); simpl; [lia|].
    rewrite IH. destruct (PyDict.get d s); lia.
Qed.

Lemma count_all_cons app apps :
  count_all cfg valid_stacks (app :: apps)
  = match counted cfg valid_stacks app with Some _ => 1 | None => 0 end
    + count_all cfg valid_stacks apps.
Proof.
  unfold count_all. rewrite filter_cons.
  destruct (counted cfg valid_stacks app) as [s|].
  - rewrite decide_True by eauto. simpl length. lia.
  - rewrite decide_False by (by intros [? ?]). lia.
Qed.

Lemma total_foldl_count_app apps d :
  total (foldl (count_app cfg valid_stacks) d apps)
  = total d + count_all cfg valid_stacks apps.
Proof.
  revert d. induction apps as [|a apps IH]; intros d.
  - unfold count_all. simpl. lia.
  - simpl foldl. rewrite IH, count_all_cons, count_app_counted.
    destruct (counted cfg valid_stacks a) as [s|]; [|lia].
    rewrite total_setitem. lia.
Qed.

Lemma count_app_positive d app :
  Forall (fun item => 1 ≤ item.2) d →
  Forall (fun item => 1 ≤ item.2) (count_app cfg valid_stacks d app).
Proof.
  intros Hd. rewrite count_app_counted.
  destruct (counted cfg valid_stacks app) as [s|]; [|done].
  apply Forall_forall. intros [k v] Hin.
  apply elem_of_setitem in Hin as [[-> ->]|Hin]; simpl.
  - unfold PyDict.get_default. destruct (PyDict.get d s) as [v0|] eqn:Hget; [|lia].
    apply get_Some_elem in Hget. rewrite Forall_forall in Hd.
    specialize (Hd _ Hget). simpl in Hd. lia.
  - rewrite Forall_forall in Hd. exact (Hd _ Hin).
Qed.

Lemma count_app_skipped d app :
  truthy (get_stack app) = false → count_app cfg valid_stacks d app = d.
Proof.
  unfold count_app. destruct (get_stack app) as [s|]; [|done].
  by intros ->.
Qed.

Lemma foldl_count_app_skipped d apps :
  Forall (fun app => truthy (get_stack app) = false) apps →
  foldl (count_app cfg valid_stacks) d apps = d.
Proof.
  induction 1 as [|a apps Ha _ IH]; simpl; [done|].
  by rewrite count_app_skipped.
Qed.

End counting.

(** X1.  For every stack name, the aggregate holds the number of application
    records, over all pages, that are counted under that name; a name under
    which no record is counted is not a key. *)
Theorem aggregate_counts cfg valid_stacks responses s :
  PyDict.get (aggregate cfg valid_stacks responses) s
  = if count_of cfg valid_stacks s (records responses) =? 0 then None
    else Some (count_of cfg valid_stacks s (records responses)).
Proof.
  unfold aggregate. rewrite aggregate_from_records, get_foldl_count_app.
  by destruct (count_of cfg valid_stacks s (records responses) =? 0).
Qed.

(** X2.  The keys of an aggregate are pairwise distinct and every count is
    at least 1: a stack with count 0 is never stored. *)
Theorem aggregate_counts_positive cfg valid_stacks responses :
  NoDup (PyDict.keys (aggregate cfg valid_stacks responses))
  ∧ Forall (fun item => 1 ≤ item.2) (aggregate cfg valid_stacks responses).
Proof.
  split; [apply aggregate_NoDup|].
  unfold aggregate. rewrite aggregate_from_records.
  apply (foldl_count_app_invariant cfg valid_stacks (Forall (fun item => 1 ≤ item.2))).
  - intros d app. apply count_app_positive.
  - constructor.
Qed.

(** X3.  The counts of an aggregate add up to the number of records that
    were counted, which is at most the number of records fetched. *)
Theorem aggregate_total cfg valid_stacks responses :
  total (aggregate cfg valid_stacks responses)
  = count_all cfg valid_stacks (records responses)
  ∧ total (aggregate cfg valid_stacks responses) ≤ Z.of_nat (length (records responses)).
Proof.
  assert (total (aggregate cfg valid_stacks responses)
          = count_all cfg valid_stacks (records responses)) as Heq.
  { unfold aggregate. rewrite aggregate_from_records, total_foldl_count_app.
    simpl. lia. }
  split; [done|]. rewrite Heq. unfold count_all.
  apply inj_le, length_filter.
Qed.

(** X4.  A name is a key of the aggregate exactly when it is not empty, is
    the stack of some fetched record, and either invalid stacks are included
    or the name is in the valid-stack list. *)
Theorem aggregate_keys cfg valid_stacks responses s :
  s ∈ PyDict.keys (aggregate cfg valid_stacks responses)
  ↔ s ≠ ""
    ∧ (INCLUDE_INVALID_STACKS cfg = true ∨ s ∈ valid_stacks)
    ∧ ∃ app, app ∈ records responses ∧ get_stack app = Some s.
Proof.
  assert (s ∈ PyDict.keys (aggregate cfg valid_stacks responses)
          ↔ 0 < count_of cfg valid_stacks s (records responses)) as ->.
  { pose proof (get_None_keys (aggregate cfg valid_stacks responses) s) as Hnone.
    rewrite aggregate_counts in Hnone.
    pose proof (count_of_nonneg cfg valid_stacks s (records responses)).
    destruct (Z.eqb_spec (count_of cfg valid_stacks s (records responses)) 0).
    - split; [|lia]. intros Hin. by apply Hnone in Hin.
    - split; [lia|]. intros _.
      destruct (decide (s ∈ PyDict.keys (aggregate cfg valid_stacks responses)));
        [done|]. by apply Hnone in n0. }
  rewrite count_of_pos. split.
  - intros (app & Hin & Hc). apply counted_iff in Hc as (Hs & Hne & Hok). eauto.
  - intros (Hne & Hok & app & Hin & Hs). exists app. split; [done|].
    by apply counted_iff.
Qed.

(** X5.  A page whose records carry no stack, or an empty one, and a page
    without a [resources] key, change nothing: the aggregate is the one of
    the other pages, wherever the page stands. *)
Theorem aggregate_skips_unusable_records cfg valid_stacks before page after :
  Forall (fun app => truthy (get_stack app) = false) (get_resources page) →
  aggregate cfg valid_stacks (before ++ page :: after)
  = aggregate cfg valid_stacks (before ++ after).
Proof.
  intros Hskip. unfold aggregate. rewrite !aggregate_from_records.
  unfold records. rewrite !fmap_app, fmap_cons, !concat_app, concat_cons.
  rewrite !foldl_app. by rewrite (foldl_count_app_skipped cfg valid_stacks _ _ Hskip).
Qed.

Lemma aggregate_skips_unusable_records_witness :
  aggregate sample_config sample_valid_stacks
    ([sample_page1] ++ sample_page_no_stack :: [sample_page2])
  = aggregate sample_config sample_valid_stacks ([sample_page1] ++ [sample_page2]).
Proof.
  apply (aggregate_skips_unusable_records sample_config sample_valid_stacks
           [sample_page1] sample_page_no_stack [sample_page2]).
  repeat constructor.
Defined.

(** X6.  With filtering enabled and an empty valid-stack list, every
    aggregate is empty, whatever the pages hold. *)
Theorem aggregate_empty_valid_list cfg responses :
  INCLUDE_INVALID_STACKS cfg = false → aggregate cfg [] responses = [].
Proof.
  intros Hflag.
  pose proof (aggregate_keys_valid cfg [] responses Hflag) as Hvalid.
  destruct (aggregate cfg [] responses) as [|[k v] d]; [done|].
  unfold keys_valid, PyDict.keys in Hvalid. simpl in Hvalid.
  apply Forall_cons in Hvalid as [Hk _]. by apply elem_of_nil in Hk.
Qed.

Lemma aggregate_empty_valid_list_witness :
  aggregate sample_config [] [sample_page1; sample_page2] = [].
Proof.
  apply (aggregate_empty_valid_list sample_config [sample_page1; sample_page2]).
  reflexivity.
Defined.

(** ** The API client and the authenticator *)

Lemma api_call_effects {B} cfg (server : request → reply B) url st :
  log (api_call cfg server url st).2
  = Get (api_call_request cfg (CF_AUTH_TOKEN st) url) :: log st
  ∧ CF_AUTH_TOKEN (api_call cfg server url st).2 = CF_AUTH_TOKEN st
  ∧ stack_cache (api_call cfg server url st).2 = stack_cache st
  ∧ stack_gauge (api_call cfg server url st).2 = stack_gauge st.
Proof.
  rewrite api_call_unfold. cbv zeta.
  destruct (server _) as [|status_code body]; [done|].
  destruct ((400 <=? status_code) && (status_code <? 600))%bool; [done|].
  by destruct body.
Qed.

Lemma api_call_returns {B} cfg (server : request → reply B) url st b :
  (api_call cfg server url st).1 = Returned b
  ↔ reply_body (server (api_call_request cfg (CF_AUTH_TOKEN st) url)) = Some b.
Proof.
  rewrite api_call_unfold. cbv zeta. unfold reply_body.
  destruct (server _) as [|status_code body]; [done|].
  destruct ((400 <=? status_code) && (status_code <? 600))%bool; [done|].
  destruct body; simpl; [|done]. split; by intros [= ->].
Qed.

Lemma api_call_raises_None {B} cfg (server : request → reply B) url st :
  reply_body (server (api_call_request cfg (CF_AUTH_TOKEN st) url)) = None →
  ∃ response, (api_call cfg server url st).1 = Raised (RequestException response).
Proof.
  rewrite api_call_unfold. cbv zeta. unfold reply_body.
  destruct (server _) as [|status_code body]; [by eexists|].
  destruct ((400 <=? status_code) && (status_code <? 600))%bool; [by eexists|].
  destruct body; [done | by eexists].
Qed.

(** X7.  A call of [api_call] sends exactly one GET, to the URL it is given
    and with the current token as bearer credential; it returns a body
    exactly when the reply has a status outside 400-599 and a body that
    parses, 2xx or not; it changes neither the token, nor the cache, nor the
    gauge. *)
Theorem api_call_one_request {B} cfg (server : request → reply B) url st :
  let req := api_call_request cfg (CF_AUTH_TOKEN st) url in
  let r := api_call cfg server url st in
  (∀ b, r.1 = Returned b ↔ reply_body (server req) = Some b)
  ∧ log r.2 = Get req :: log st
  ∧ PyDict.get (headers req) "Authorization" = Some ("Bearer " +:+ CF_AUTH_TOKEN st)
  ∧ CF_AUTH_TOKEN r.2 = CF_AUTH_TOKEN st
  ∧ stack_cache r.2 = stack_cache st
  ∧ stack_gauge r.2 = stack_gauge st.
Proof.
  intros req r. split; [intros b; apply api_call_returns|].
  pose proof (api_call_effects cfg server url st) as (Hlog & Htoken & Hcache & Hgauge).
  done.
Qed.

Lemma api_call_raised_kinds {B} cfg (server : request → reply B) url st :
  match (api_call cfg server url st).1 with
  | Returned _ => True
  | Raised (RequestException (Some status_code)) =>
      400 ≤ status_code < 600
      ∧ ∃ body, server (api_call_request cfg (CF_AUTH_TOKEN st) url)
                = Replied status_code body
  | Raised (RequestException None) =>
      server (api_call_request cfg (CF_AUTH_TOKEN st) url) = NoResponse
      ∨ ∃ status_code,
          server (api_call_request cfg (CF_AUTH_TOKEN st) url) = Replied status_code None
          ∧ ¬ 400 ≤ status_code < 600
  | Raised _ => False
  end.
Proof.
  rewrite api_call_unfold. cbv zeta.
  destruct (server _) as [|status_code body]; simpl; [by left|].
  destruct ((400 <=? status_code) && (status_code <? 600))%bool eqn:E; simpl.
  - apply andb_true_iff in E as [?%Z.leb_le ?%Z.ltb_lt]. split; [lia | by eexists].
  - destruct body; simpl; [done|]. right. exists status_code. split; [done|].
    apply andb_false_iff in E as [?%Z.leb_gt|?%Z.ltb_ge]; lia.
Qed.

(** X8.  What [api_call] raises is always a [RequestException]: with the
    status code when the reply had a 4xx or 5xx status, without a response
    when nothing came back or the body of an accepted reply did not parse. *)
Theorem api_call_error_kinds {B} cfg (server : request → reply B) url st :
  match (api_call cfg server url st).1 with
  | Returned _ => True
  | Raised (RequestException (Some status_code)) =>
      400 ≤ status_code < 600
      ∧ ∃ body, server (api_call_request cfg (CF_AUTH_TOKEN st) url)
                = Replied status_code body
  | Raised (RequestException None) =>
      server (api_call_request cfg (CF_AUTH_TOKEN st) url) = NoResponse
      ∨ ∃ status_code,
          server (api_call_request cfg (CF_AUTH_TOKEN st) url) = Replied status_code None
          ∧ ¬ 400 ≤ status_code < 600
  | Raised _ => False
  end.
Proof. apply api_call_raised_kinds. Qed.

Lemma get_token_effects cfg (server : request → reply token_body) st :
  let r := get_token cfg server st in
  match r.1 with
  | Returned _ =>
      ∃ body, reply_body (server (get_token_request cfg)) = Some body
              ∧ access_token body = Some (CF_AUTH_TOKEN r.2)
  | Raised err => CF_AUTH_TOKEN r.2 = CF_AUTH_TOKEN st ∧ err ≠ Exception
  end
  ∧ log r.2 = Post (get_token_request cfg) :: log st
  ∧ stack_cache r.2 = stack_cache st
  ∧ stack_gauge r.2 = stack_gauge st.
Proof.
  intros r. subst r. rewrite get_token_unfold. cbv zeta. unfold reply_body.
  destruct (server _) as [|status_code body]; [done|].
  destruct ((400 <=? status_code) && (status_code <? 600))%bool; [done|].
  destruct body as [b|]; [|done].
  destruct (access_token b) as [token|] eqn:Htoken; [|done].
  simpl. split; [|done]. by exists b.
Qed.

(** X9.  A call of [get_token] sends exactly one POST.  When it returns,
    the token is the [access_token] of the reply; when it raises, the token
    is the one held before, and the exception is a [RequestException] or a
    [KeyError].  The cache and the gauge are not touched. *)
Theorem get_token_replaces_token_on_success cfg (server : request → reply token_body) st :
  let r := get_token cfg server st in
  match r.1 with
  | Returned _ =>
      ∃ body, reply_body (server (get_token_request cfg)) = Some body
              ∧ access_token body = Some (CF_AUTH_TOKEN r.2)
  | Raised err => CF_AUTH_TOKEN r.2 = CF_AUTH_TOKEN st ∧ err ≠ Exception
  end
  ∧ log r.2 = Post (get_token_request cfg) :: log st
  ∧ stack_cache r.2 = stack_cache st
  ∧ stack_gauge r.2 = stack_gauge st.
Proof. apply get_token_effects. Qed.

(** ** The retry loop *)

Section retry_loop.
Context (cfg : config) (w : world).

Lemma on_discovery_error_effects retries err st :
  let r := on_discovery_error cfg w retries err st in
  stack_cache r.2 = stack_cache st ∧ stack_gauge r.2 = stack_gauge st
  ∧ ((r.1 = Returned tt
      ∧ slept (log r.2) = slept (log st) + 5
      ∧ gets (log r.2) = gets (log st)
      ∧ (posts (log r.2) ≤ posts (log st) + 1)%nat)
     ∨ ((∃ e, r.1 = Raised e ∧ e ≠ Exception)
        ∧ slept (log r.2) = slept (log st)
        ∧ gets (log r.2) = gets (log st)
        ∧ posts (log r.2) = S (posts (log st)))).
Proof.
  intros r. subst r. unfold on_discovery_error.
  assert (∀ s, stack_cache (sleep 5 s).2 = stack_cache s
               ∧ stack_gauge (sleep 5 s).2 = stack_gauge s
               ∧ ((sleep 5 s).1 = Returned tt
                  ∧ slept (log (sleep 5 s).2) = slept (log s) + 5
                  ∧ gets (log (sleep 5 s).2) = gets (log s)
                  ∧ (posts (log (sleep 5 s).2) ≤ posts (log s) + 1)%nat)) as Hsleep.
  { intros s. unfold gets, posts. simpl. repeat split; lia. }
  destruct err as [[status_code|]| |];
    try (destruct (Hsleep st) as (? & ? & ?); by auto).
  destruct ((status_code =? 403) || (status_code =? 401))%bool;
    [|destruct (Hsleep st) as (? & ? & ?); by auto].
  rewrite bind_unfold.
  pose proof (get_token_effects cfg (token_reply w retries) st)
    as (Hres & Hlog & Hcache & Hgauge).
  cbv zeta in *.
  destruct (get_token cfg (token_reply w retries) st) as [[[]|e] st1]; simpl in *.
  - split; [done|]. split; [done|]. left.
    unfold gets, posts. simpl. rewrite Hlog. simpl. repeat split; lia.
  - split; [done|]. split; [done|]. right. destruct Hres as [_ He].
    unfold gets, posts. simpl. rewrite Hlog. simpl. split; [by exists e|]. done.
Qed.

Lemma page_discovery_S remaining :
  page_discovery cfg w (S remaining)
  = try_except (api_call cfg (apps_reply w (5 - S remaining)) (apps_endpoint cfg))
      (fun err =>
         on_discovery_error cfg w (5 - S remaining) err;;
         page_discovery cfg w remaining).
Proof. reflexivity. Qed.

Lemma page_discovery_effects remaining st :
  let r := page_discovery cfg w remaining st in
  stack_cache r.2 = stack_cache st ∧ stack_gauge r.2 = stack_gauge st
  ∧ (gets (log r.2) ≤ gets (log st) + remaining)%nat
  ∧ (posts (log r.2) ≤ posts (log st) + remaining)%nat
  ∧ ∃ j, 0 ≤ j ≤ Z.of_nat remaining ∧ slept (log r.2) = slept (log st) + 5 * j.
Proof.
  revert st. induction remaining as [|remaining IH]; intros st; cbv zeta.
  - simpl. repeat split; try lia. exists 0. lia.
  - rewrite page_discovery_S. unfold try_except.
    generalize (5 - S remaining)%nat. intros retries.
    pose proof (api_call_effects cfg (apps_reply w retries) (apps_endpoint cfg) st)
      as (Hlog & _ & Hcache & Hgauge).
    destruct (api_call cfg (apps_reply w retries) (apps_endpoint cfg) st)
      as [[page|e] st1]; simpl in *.
    + unfold gets, posts. rewrite Hlog. simpl.
      repeat split; try done; try lia. exists 0. lia.
    + rewrite bind_unfold.
      pose proof (on_discovery_error_effects retries e st1)
        as (Hcache2 & Hgauge2 & Hcases).
      cbv zeta in Hcases, Hcache2, Hgauge2.
      assert (gets (log st1) = S (gets (log st))
              ∧ posts (log st1) = posts (log st)
              ∧ slept (log st1) = slept (log st)) as (Hg1 & Hp1 & Hs1).
      { unfold gets, posts. rewrite Hlog. done. }
      destruct (on_discovery_error cfg w retries e st1) as [[[]|e'] st2];
        simpl in *.
      * destruct Hcases as [(_ & Hs & Hg & Hp)|((e0 & He0 & _) & _)]; [|done].
        specialize (IH st2). cbv zeta in IH.
        destruct IH as (Hc3 & Hg3 & Hgets & Hposts & j & Hj & Hslept).
        split; [congruence|]. split; [congruence|].
        split; [lia|]. split; [lia|]. exists (j + 1). lia.
      * destruct Hcases as [(He & _)|(_ & Hs & Hg & Hp)]; [done|].
        split; [congruence|]. split; [congruence|].
        split; [lia|]. split; [lia|]. exists 0. lia.
Qed.

End retry_loop.

Section retry_rounds.
Context (cfg : config) (w : world).

Lemma retry_round remaining st :
  retried w (5 - S remaining) →
  ∃ st1,
    page_discovery cfg w (S remaining) st = page_discovery cfg w remaining st1
    ∧ stack_cache st1 = stack_cache st
    ∧ stack_gauge st1 = stack_gauge st
    ∧ if auth_failure (apps_reply w (5 - S remaining)
                         (api_call_request cfg (CF_AUTH_TOKEN st) (apps_endpoint cfg)))
      then log st1
           = Sleep 5 :: Post (get_token_request cfg)
               :: Get (api_call_request cfg (CF_AUTH_TOKEN st) (apps_endpoint cfg)) :: log st
           ∧ ∃ body,
               reply_body (token_reply w (5 - S remaining) (get_token_request cfg)) = Some body
               ∧ access_token body = Some (CF_AUTH_TOKEN st1)
      else log st1
           = Sleep 5 :: Get (api_call_request cfg (CF_AUTH_TOKEN st) (apps_endpoint cfg)) :: log st
           ∧ CF_AUTH_TOKEN st1 = CF_AUTH_TOKEN st.
Proof.
  intros Hretried. rewrite page_discovery_S. unfold try_except.
  revert Hretried. generalize (5 - S remaining)%nat. intros retries Hretried.
  rewrite api_call_unfold. cbv zeta.
  destruct (Hretried (api_call_request cfg (CF_AUTH_TOKEN st) (apps_endpoint cfg)))
    as [Hraises Hlogin].
  destruct (apps_reply w retries _) as [|status_code body]; simpl in Hraises, Hlogin.
  - eexists. split; [reflexivity|]. simpl. done.
  - unfold auth_failure.
    destruct ((400 <=? status_code) && (status_code <? 600))%bool eqn:Hcode.
    + rewrite bind_unfold. unfold on_discovery_error.
      destruct ((status_code =? 403) || (status_code =? 401))%bool.
      * rewrite bind_unfold, get_token_unfold. cbv zeta.
        specialize (Hlogin eq_refl (get_token_request cfg)). unfold reply_body.
        destruct (token_reply w retries _) as [|status_code' body']; simpl in Hlogin; [done|].
        destruct ((400 <=? status_code') && (status_code' <? 600))%bool; [done|].
        destruct body' as [b|]; [|done].
        destruct (access_token b) as [token|] eqn:Htoken; [|done].
        eexists. split; [reflexivity|]. simpl. repeat split; try done. by exists b.
      * eexists. split; [reflexivity|]. simpl. done.
    + simpl in Hraises. destruct body; [done|].
      assert ((status_code =? 403) || (status_code =? 401) = false)%bool as ->.
      { apply andb_false_iff in Hcode as [?%Z.leb_gt|?%Z.ltb_ge];
          apply orb_false_iff; split; apply Z.eqb_neq; lia. }
      eexists. split; [reflexivity|]. simpl. done.
Qed.

Lemma retry_round_counts remaining st :
  retried w (5 - S remaining) →
  ∃ st1,
    page_discovery cfg w (S remaining) st = page_discovery cfg w remaining st1
    ∧ gets (log st1) = S (gets (log st))
    ∧ slept (log st1) = slept (log st) + 5.
Proof.
  intros Hretried. destruct (retry_round remaining st Hretried) as (st1 & Heq & _ & _ & Hlog).
  exists st1. split; [done|].
  destruct (auth_failure _); destruct Hlog as [-> _]; unfold gets; simpl; split; lia.
Qed.

Lemma first_rounds_counts (k : nat) st :
  (k ≤ 5)%nat → (∀ n, (n < k)%nat → retried w n) →
  ∃ st1,
    page_discovery cfg w 5 st = page_discovery cfg w (5 - k) st1
    ∧ gets (log st1) = (gets (log st) + k)%nat
    ∧ slept (log st1) = slept (log st) + 5 * Z.of_nat k.
Proof.
  induction k as [|k IH]; intros Hk Hretried.
  - exists st. split; [done|]. split; lia.
  - destruct IH as (st1 & Heq & Hgets & Hslept); [lia | intros n Hn; apply Hretried; lia |].
    destruct (retry_round_counts (5 - S k) st1) as (st2 & Heq2 & Hgets2 & Hslept2).
    { replace (5 - S (5 - S k))%nat with k by lia. apply Hretried. lia. }
    exists st2. split; [|split; lia].
    rewrite Heq. by replace (5 - k)%nat with (S (5 - S k)) by lia.
Qed.

Lemma answered_round remaining st page :
  (∀ req, reply_body (apps_reply w (5 - S remaining) req) = Some page) →
  ∃ st1,
    page_discovery cfg w (S remaining) st = (Returned page, st1)
    ∧ log st1 = Get (api_call_request cfg (CF_AUTH_TOKEN st) (apps_endpoint cfg)) :: log st
    ∧ stack_cache st1 = stack_cache st.
Proof.
  intros Hanswered. rewrite page_discovery_S. unfold try_except.
  revert Hanswered. generalize (5 - S remaining)%nat. intros retries Hanswered.
  pose proof (api_call_effects cfg (apps_reply w retries) (apps_endpoint cfg) st)
    as (Hlog & _ & Hcache & _).
  pose proof (proj2 (api_call_returns cfg (apps_reply w retries) (apps_endpoint cfg) st page)
                (Hanswered _)) as Hret.
  destruct (api_call cfg (apps_reply w retries) (apps_endpoint cfg) st) as [r st1].
  simpl in Hret, Hlog, Hcache. subst r. by exists st1.
Qed.

End retry_rounds.

(** X11.  A failed discovery attempt that is retried (attempt number
    [retries], counted from 0) costs one GET, then one login POST exactly
    when the reply was 401 or 403, then one sleep of five seconds.  After a
    login the token is the one the login returned, so that the next attempt
    is sent with it; otherwise the token is unchanged. *)
Theorem failed_attempt_one_login_one_sleep cfg w (retries : nat) st :
  (retries < 5)%nat →
  retried w retries →
  ∃ st1,
    page_discovery cfg w (5 - retries) st = page_discovery cfg w (5 - S retries) st1
    ∧ stack_cache st1 = stack_cache st
    ∧ stack_gauge st1 = stack_gauge st
    ∧ if auth_failure (apps_reply w retries
                         (api_call_request cfg (CF_AUTH_TOKEN st) (apps_endpoint cfg)))
      then log st1
           = Sleep 5 :: Post (get_token_request cfg)
               :: Get (api_call_request cfg (CF_AUTH_TOKEN st) (apps_endpoint cfg)) :: log st
           ∧ ∃ body,
               reply_body (token_reply w retries (get_token_request cfg)) = Some body
               ∧ access_token body = Some (CF_AUTH_TOKEN st1)
      else log st1
           = Sleep 5 :: Get (api_call_request cfg (CF_AUTH_TOKEN st) (apps_endpoint cfg)) :: log st
           ∧ CF_AUTH_TOKEN st1 = CF_AUTH_TOKEN st.
Proof.
  intros Hlt Hretried.
  assert (retries = 5 - S (5 - S retries))%nat as Hindex by lia.
  rewrite Hindex in Hretried.
  destruct (retry_round cfg w (5 - S retries) st Hretried) as (st1 & Heq & Hrest).
  rewrite <- Hindex in Hrest.
  exists st1. split; [|exact Hrest].
  rewrite <- Heq. f_equal. lia.
Qed.

Lemma failed_attempt_one_login_one_sleep_witness :
  ∃ st1,
    page_discovery sample_config world_relogin_ok (5 - 0) sample_state
    = page_discovery sample_config world_relogin_ok (5 - 1) st1
    ∧ stack_cache st1 = stack_cache sample_state
    ∧ stack_gauge st1 = stack_gauge sample_state
    ∧ if auth_failure (apps_reply world_relogin_ok 0
                         (api_call_request sample_config (CF_AUTH_TOKEN sample_state)
                            (apps_endpoint sample_config)))
      then log st1
           = Sleep 5 :: Post (get_token_request sample_config)
               :: Get (api_call_request sample_config (CF_AUTH_TOKEN sample_state)
                         (apps_endpoint sample_config)) :: log sample_state
           ∧ ∃ body,
               reply_body (token_reply world_relogin_ok 0
                             (get_token_request sample_config)) = Some body
               ∧ access_token body = Some (CF_AUTH_TOKEN st1)
      else log st1
           = Sleep 5 :: Get (api_call_request sample_config (CF_AUTH_TOKEN sample_state)
                               (apps_endpoint sample_config)) :: log sample_state
           ∧ CF_AUTH_TOKEN st1 = CF_AUTH_TOKEN sample_state.
Proof.
  apply (failed_attempt_one_login_one_sleep sample_config world_relogin_ok 0 sample_state).
  - lia.
  - intros req. split; [reflexivity|]. intros _ req'. reflexivity.
Defined.

(** X12.  When the first [k] attempts (k < 5) fail and are retried and
    attempt [k] is answered, page discovery returns that answer after
    [k + 1] GETs and [5 k] seconds of sleep. *)
Theorem discovery_returns_after_retries cfg w st (k : nat) page :
  (k < 5)%nat →
  (∀ n, (n < k)%nat → retried w n) →
  (∀ req, reply_body (apps_reply w k req) = Some page) →
  ∃ st1,
    page_discovery cfg w 5 st = (Returned page, st1)
    ∧ gets (log st1) = (gets (log st) + k + 1)%nat
    ∧ slept (log st1) = slept (log st) + 5 * Z.of_nat k
    ∧ stack_cache st1 = stack_cache st.
Proof.
  intros Hk Hretried Hanswered.
  destruct (first_rounds_counts cfg w k st) as (st1 & Heq & Hgets & Hslept); [lia | done |].
  destruct (answered_round cfg w (5 - S k) st1 page) as (st2 & Heq2 & Hlog & Hcache2).
  { by replace (5 - S (5 - S k))%nat with k by lia. }
  replace (S (5 - S k)) with (5 - k)%nat in Heq2 by lia.
  exists st2. split; [by rewrite Heq|].
  pose proof (page_discovery_effects cfg w 5 st) as (Hcache & _).
  cbv zeta in Hcache. rewrite Heq, Heq2 in Hcache. simpl in Hcache.
  unfold gets in *. rewrite Hlog. simpl. repeat split; try done; lia.
Qed.

Lemma discovery_returns_after_retries_witness :
  ∃ st1,
    page_discovery sample_config world_relogin_ok 5 sample_state
    = (Returned sample_page1, st1)
    ∧ gets (log st1) = (gets (log sample_state) + 1 + 1)%nat
    ∧ slept (log st1) = slept (log sample_state) + 5 * Z.of_nat 1
    ∧ stack_cache st1 = stack_cache sample_state.
Proof.
  apply (discovery_returns_after_retries sample_config world_relogin_ok sample_state 1
           sample_page1).
  - lia.
  - intros n Hn req. assert (n = 0%nat) as -> by lia.
    split; [reflexivity|]. intros _ req'. reflexivity.
  - intros req. reflexivity.
Defined.

(** ** Whole passes *)

Section passes.
Context (cfg : config) (valid_stacks : list string) (w : world).

(** The pages are fetched with the token held when the fetch begins; no
    login and no sleep happens while they are fetched. *)
Lemma fetch_all_spec all_urls st :
  let r := fetch_all cfg w all_urls st in
  CF_AUTH_TOKEN r.2 = CF_AUTH_TOKEN st
  ∧ slept (log r.2) = slept (log st)
  ∧ posts (log r.2) = posts (log st)
  ∧ (gets (log r.2) ≤ gets (log st) + length all_urls)%nat
  ∧ match mapM (fun u => reply_body
                           (page_reply w (api_call_request cfg (CF_AUTH_TOKEN st) u)))
            all_urls with
    | Some responses =>
        r.1 = Returned responses
        ∧ gets (log r.2) = (gets (log st) + length all_urls)%nat
    | None => ∃ response, r.1 = Raised (RequestException response)
    end.
Proof.
  revert st. induction all_urls as [|u rest IH]; intros st; cbv zeta.
  - simpl. repeat split; lia.
  - simpl fetch_all. rewrite bind_unfold.
    pose proof (api_call_effects cfg (page_reply w) u st) as (Hlog & Htoken & _ & _).
    pose proof (api_call_returns cfg (page_reply w) u st) as Hret.
    pose proof (api_call_raises_None cfg (page_reply w) u st) as Hraise.
    simpl mapM.
    destruct (reply_body (page_reply w (api_call_request cfg (CF_AUTH_TOKEN st) u)))
      as [b|] eqn:Hbody.
    + pose proof (proj2 (Hret b) eq_refl) as Hb. clear Hret Hraise.
      destruct (api_call cfg (page_reply w) u st) as [r st1]. simpl in *. subst r.
      rewrite bind_unfold. specialize (IH st1). cbv zeta in IH. rewrite Htoken in IH.
      destruct IH as (Ht & Hs & Hp & Hg & Hres).
      assert (gets (log st1) = S (gets (log st)) ∧ posts (log st1) = posts (log st)
              ∧ slept (log st1) = slept (log st)) as (Hg1 & Hp1 & Hs1).
      { unfold gets, posts. by rewrite Hlog. }
      destruct (mapM _ rest) as [responses|]; simpl.
      * destruct Hres as [Hr Hgets].
        destruct (fetch_all cfg w rest st1) as [r st2]. simpl in *. subst r. simpl.
        repeat split; try congruence; lia.
      * destruct Hres as [response Hr].
        destruct (fetch_all cfg w rest st1) as [r st2]. simpl in *. subst r. simpl.
        repeat split; try congruence; try lia. by exists response.
    + destruct (Hraise eq_refl) as [response Hr]. clear Hret Hraise.
      destruct (api_call cfg (page_reply w) u st) as [r st1]. simpl in *. subst r.
      simpl. unfold gets, posts. rewrite Hlog. simpl.
      repeat split; try done; try lia. by exists response.
Qed.

Lemma crawl_after_discovery st page st1 n :
  page_discovery cfg w 5 st = (Returned page, st1) →
  pagination page = Some (Pagination (Some n)) →
  crawl cfg valid_stacks w st
  = match fetch_all cfg w (page_url cfg <$> seqZ 1 n) st1 with
    | (Returned responses, st') => (Returned (aggregate cfg valid_stacks responses), st')
    | (Raised e, st') => (Raised e, st')
    end.
Proof.
  intros Hdisc Hpag. unfold crawl. rewrite bind_unfold, Hdisc, Hpag. reflexivity.
Qed.

Lemma crawl_missing_key st page st1 :
  page_discovery cfg w 5 st = (Returned page, st1) →
  pagination page = None
  ∨ (∃ p, pagination page = Some p ∧ total_pages p = None) →
  crawl cfg valid_stacks w st = (Raised KeyError, st1).
Proof.
  intros Hdisc Hmissing. unfold crawl. rewrite bind_unfold, Hdisc.
  destruct Hmissing as [->|(p & -> & Hp)]; [done|].
  rewrite bind_unfold. simpl. rewrite bind_unfold, Hp. done.
Qed.

Lemma crawl_log_suffix st : log st `suffix_of` log (crawl cfg valid_stacks w st).2.
Proof.
  apply (preserves_crawl cfg (fun s => log st `suffix_of` log s)).
  - intros e _ s Hs. simpl. by apply suffix_cons_r.
  - by intros token s Hs.
  - done.
Qed.

Lemma crawl_effects st :
  (posts (log (crawl cfg valid_stacks w st).2) ≤ posts (log st) + 5)%nat
  ∧ ∃ j, 0 ≤ j ≤ 5
         ∧ slept (log (crawl cfg valid_stacks w st).2) = slept (log st) + 5 * j.
Proof.
  pose proof (page_discovery_effects cfg w 5 st) as (_ & _ & _ & Hposts & j & Hj & Hslept).
  cbv zeta in *. unfold crawl. rewrite bind_unfold.
  destruct (page_discovery cfg w 5 st) as [[page|e] st1]; simpl in *.
  2: { split; [done|]. exists j. split; [lia | done]. }
  rewrite bind_unfold.
  destruct (pagination page) as [p|]; simpl.
  2: { split; [done|]. exists j. split; [lia | done]. }
  rewrite bind_unfold.
  destruct (total_pages p) as [n|]; simpl.
  2: { split; [done|]. exists j. split; [lia | done]. }
  rewrite bind_unfold.
  pose proof (fetch_all_spec (page_url cfg <$> seqZ 1 n) st1) as (_ & Hs & Hp & _).
  cbv zeta in *.
  destruct (fetch_all cfg w (page_url cfg <$> seqZ 1 n) st1) as [[responses|e] st2];
    simpl in *; (split; [lia|]; exists j; split; [lia | congruence]).
Qed.



(** What a crawl returns is the aggregate of the answers to the pages that
    page discovery announced. *)
Lemma crawl_returns_pages st stack_counts st' :
  crawl cfg valid_stacks w st = (Returned stack_counts, st') →
  ∃ page st1 n responses,
    page_discovery cfg w 5 st = (Returned page, st1)
    ∧ pagination page = Some (Pagination (Some n))
    ∧ mapM (fun u => reply_body (page_reply w (api_call_request cfg (CF_AUTH_TOKEN st1) u)))
           (page_url cfg <$> seqZ 1 n) = Some responses
    ∧ stack_counts = aggregate cfg valid_stacks responses.
Proof.
  intros Hcrawl.
  destruct (page_discovery cfg w 5 st) as [[page|e] st1] eqn:Hdisc.
  2: { by rewrite (crawl_discovery_raised cfg valid_stacks w st e st1 Hdisc) in Hcrawl. }
  destruct (pagination page) as [[[n|]]|] eqn:Hpag.
  2: { rewrite (crawl_missing_key st page st1 Hdisc) in Hcrawl; [done|].
       right. by eexists. }
  2: { rewrite (crawl_missing_key st page st1 Hdisc) in Hcrawl; [done | by left]. }
  rewrite (crawl_after_discovery st page st1 n Hdisc Hpag) in Hcrawl.
  pose proof (fetch_all_spec (page_url cfg <$> seqZ 1 n) st1) as (_ & _ & _ & _ & Hres).
  cbv zeta in Hres.
  destruct (fetch_all cfg w (page_url cfg <$> seqZ 1 n) st1) as [[responses|e] st2];
    simpl in *; [|done].
  injection Hcrawl as <- <-.
  destruct (mapM _ (page_url cfg <$> seqZ 1 n)) as [responses'|] eqn:Hpages.
  - destruct Hres as [[= ->] _]. by exists page, st1, n, responses'.
  - by destruct Hres.
Qed.

End passes.

(** X13.  A pass never writes the gauge and only adds to the log.  When it
    aborts, whatever the cause, the cache is the one it found.  When it
    publishes, page discovery has returned a body announcing some [n] pages,
    each of the pages 1 to [n] was answered, and the cache is the aggregate
    of exactly those answers, in page order. *)
Theorem pass_publishes_or_keeps_cache cfg valid_stacks w st :
  let r := iteration cfg valid_stacks w st in
  stack_gauge r.2 = stack_gauge st
  ∧ log st `suffix_of` log r.2
  ∧ match r.1 with
    | Published stack_counts =>
        stack_cache r.2 = stack_counts
        ∧ ∃ page st1 n responses,
            page_discovery cfg w 5 st = (Returned page, st1)
            ∧ pagination page = Some (Pagination (Some n))
            ∧ mapM (fun u => reply_body
                               (page_reply w (api_call_request cfg (CF_AUTH_TOKEN st1) u)))
                   (page_url cfg <$> seqZ 1 n) = Some responses
            ∧ stack_counts = aggregate cfg valid_stacks responses
    | Aborted _ => stack_cache r.2 = stack_cache st
    end.
Proof.
  intros r. subst r.
  pose proof (iteration_spec cfg valid_stacks w st) as [Hgauge Hspec].
  split; [done|]. split.
  { destruct (iteration_log cfg valid_stacks w st) as (older & -> & ->).
    apply suffix_cons_r, crawl_log_suffix. }
  revert Hspec. rewrite iteration_crawl.
  pose proof (crawl_returns_pages cfg valid_stacks w st) as Hpages.
  destruct (crawl cfg valid_stacks w st) as [[stack_counts|e] st']; simpl; [|done].
  intros [_ _]. split; [done|]. by eapply Hpages.
Qed.

(** X14.  When page discovery returns a body announcing [n] pages and the
    pages 1 to [n], requested in that order with the token then held, are
    all answered, the pass publishes the aggregate of exactly those answers
    (the records of the discovery answer itself are not counted), with one
    GET per page, no further sleep than the interval, and the token
    unchanged. *)
Theorem pass_publishes_fetched_pages cfg valid_stacks w st page st1 n responses :
  page_discovery cfg w 5 st = (Returned page, st1) →
  pagination page = Some (Pagination (Some n)) →
  mapM (fun u => reply_body (page_reply w (api_call_request cfg (CF_AUTH_TOKEN st1) u)))
       (page_url cfg <$> seqZ 1 n) = Some responses →
  let r := iteration cfg valid_stacks w st in
  r.1 = Published (aggregate cfg valid_stacks responses)
  ∧ stack_cache r.2 = aggregate cfg valid_stacks responses
  ∧ CF_AUTH_TOKEN r.2 = CF_AUTH_TOKEN st1
  ∧ gets (log r.2) = (gets (log st1) + Z.to_nat n)%nat
  ∧ slept (log r.2) = slept (log st1) + SCRAPE_INTERVAL cfg.
Proof.
  intros Hdisc Hpag Hpages r. subst r.
  rewrite iteration_crawl, (crawl_after_discovery cfg valid_stacks w st page st1 n Hdisc Hpag).
  pose proof (fetch_all_spec cfg w (page_url cfg <$> seqZ 1 n) st1)
    as (Htoken & Hslept & _ & _ & Hres).
  cbv zeta in *. rewrite Hpages in Hres. destruct Hres as [Hr Hgets].
  rewrite length_fmap, length_seqZ in Hgets.
  destruct (fetch_all cfg w (page_url cfg <$> seqZ 1 n) st1) as [r st2].
  simpl in *. subst r. simpl. unfold gets in *. simpl.
  repeat split; try done. lia.
Qed.

Lemma pass_publishes_fetched_pages_witness :
  let st1 := (page_discovery sample_config world_up 5 sample_state).2 in
  let r := iteration sample_config sample_valid_stacks world_up sample_state in
  r.1 = Published (aggregate sample_config sample_valid_stacks [sample_page1; sample_page2])
  ∧ stack_cache r.2 = aggregate sample_config sample_valid_stacks [sample_page1; sample_page2]
  ∧ CF_AUTH_TOKEN r.2 = CF_AUTH_TOKEN st1
  ∧ gets (log r.2) = (gets (log st1) + Z.to_nat 2)%nat
  ∧ slept (log r.2) = slept (log st1) + SCRAPE_INTERVAL sample_config.
Proof.
  intros st1.
  apply (pass_publishes_fetched_pages sample_config sample_valid_stacks world_up
           sample_state sample_page1 st1 2 [sample_page1; sample_page2]);
    reflexivity.
Defined.



(** X16.  When the body page discovery returns has no [pagination] key, or
    its [pagination] has no [total_pages] key, the pass aborts with a
    [KeyError] at once: no page is requested, the cache is the one the pass
    found and the interval is slept. *)
Theorem pass_aborts_on_missing_pagination cfg valid_stacks w st page st1 :
  page_discovery cfg w 5 st = (Returned page, st1) →
  pagination page = None
  ∨ (∃ p, pagination page = Some p ∧ total_pages p = None) →
  let r := iteration cfg valid_stacks w st in
  r.1 = Aborted KeyError
  ∧ stack_cache r.2 = stack_cache st
  ∧ log r.2 = Sleep (SCRAPE_INTERVAL cfg) :: log st1.
Proof.
  intros Hdisc Hmissing r. subst r.
  pose proof (iteration_spec cfg valid_stacks w st) as [_ Hspec]. revert Hspec.
  rewrite iteration_crawl, (crawl_missing_key cfg valid_stacks w st page st1 Hdisc Hmissing).
  simpl. done.
Qed.

Lemma pass_aborts_on_missing_pagination_witness :
  let st1 := (page_discovery sample_config world_no_pagination 5 sample_state).2 in
  let r := iteration sample_config sample_valid_stacks world_no_pagination sample_state in
  r.1 = Aborted KeyError
  ∧ stack_cache r.2 = stack_cache sample_state
  ∧ log r.2 = Sleep (SCRAPE_INTERVAL sample_config) :: log st1.
Proof.
  intros st1.
  apply (pass_aborts_on_missing_pagination sample_config sample_valid_stacks
           world_no_pagination sample_state (AppsPage None (Some [])) st1).
  - reflexivity.
  - left. reflexivity.
Defined.

(** X17.  When page discovery returns a body announcing zero pages, or a
    negative number of them, the pass requests no page and publishes the
    empty aggregate: the cache is emptied. *)
Theorem pass_publishes_empty_without_pages cfg valid_stacks w st page st1 n :
  page_discovery cfg w 5 st = (Returned page, st1) →
  pagination page = Some (Pagination (Some n)) →
  n ≤ 0 →
  let r := iteration cfg valid_stacks w st in
  r.1 = Published []
  ∧ stack_cache r.2 = []
  ∧ log r.2 = Sleep (SCRAPE_INTERVAL cfg) :: log st1.
Proof.
  intros Hdisc Hpag Hn r. subst r.
  rewrite iteration_crawl, (crawl_after_discovery cfg valid_stacks w st page st1 n Hdisc Hpag).
  assert (seqZ 1 n = []) as ->.
  { unfold seqZ. by replace (Z.to_nat n) with 0%nat by lia. }
  done.
Qed.

Lemma pass_publishes_empty_without_pages_witness :
  let st1 := (page_discovery sample_config world_zero_pages 5 sample_state).2 in
  let r := iteration sample_config sample_valid_stacks world_zero_pages sample_state in
  r.1 = Published []
  ∧ stack_cache r.2 = []
  ∧ log r.2 = Sleep (SCRAPE_INTERVAL sample_config) :: log st1.
Proof.
  intros st1.
  apply (pass_publishes_empty_without_pages sample_config sample_valid_stacks
           world_zero_pages sample_state
           (AppsPage (Some (Pagination (Some 0))) (Some [])) st1 0).
  - reflexivity.
  - reflexivity.
  - lia.
Defined.

(** On the worlds whose bodies are objects, a pass sleeps the interval
    plus five seconds for each of at most five retried attempts. *)
Lemma iteration_sleeps cfg valid_stacks w st :
  let r := iteration cfg valid_stacks w st in
  (∃ j, 0 ≤ j ≤ 5
        ∧ slept (log r.2) = slept (log st) + 5 * j + SCRAPE_INTERVAL cfg)
  ∧ (posts (log r.2) ≤ posts (log st) + 5)%nat.
Proof.
  intros r. subst r.
  pose proof (crawl_effects cfg valid_stacks w st) as (Hposts & j & Hj & Hslept).
  destruct (iteration_log cfg valid_stacks w st) as (older & -> & ->).
  unfold posts in *. simpl. split; [|done].
  exists j. split; [done|]. lia.
Qed.

(** ** The gauge and the scrapes *)

Lemma keys_setitem_prefix {V} (d : PyDict.t V) k v :
  PyDict.keys d `prefix_of` PyDict.keys (PyDict.setitem d k v).
Proof.
  destruct (decide (k ∈ PyDict.keys d)).
  - by rewrite keys_setitem_present.
  - rewrite keys_setitem_absent by done. by apply prefix_app_r.
Qed.

Lemma keys_set_gauges_prefix (local_cache children : pydict) :
  PyDict.keys children `prefix_of` PyDict.keys (set_gauges children local_cache).
Proof.
  unfold set_gauges. revert children.
  induction local_cache as [|[k v] rest IH]; intros children; simpl; [done|].
  etrans; [|apply IH]. apply keys_setitem_prefix.
Qed.

(** X19.  After any run, a scrape leaves the gauge holding, for every key
    of the cache, the count of the cache, and for every other label the
    value it had: as finite maps, the gauge after the scrape is the cache
    laid over the gauge before. *)
Theorem scrape_lays_cache_over_gauge cfg valid_stacks generate_latest token evs :
  let st := (run cfg valid_stacks generate_latest (initial_state token) evs).2 in
  PyDict.to_map (stack_gauge (metrics generate_latest st).2)
  = PyDict.to_map (stack_cache st) ∪ PyDict.to_map (stack_gauge st).
Proof.
  intros st. simpl. apply to_map_set_gauges. subst st.
  apply (run_state_invariant cfg valid_stacks generate_latest
           (fun s => NoDup (PyDict.keys (stack_cache s)))); [|constructor].
  intros s ev Hs.
  apply (step_cache_invariant cfg valid_stacks generate_latest
           (fun d => NoDup (PyDict.keys d))); [|done].
  apply aggregate_NoDup.
Qed.

(** X20.  The gauge never loses a label and never reorders its children:
    after any events, from any state, the labels the gauge had are the
    first labels it has, in the same order. *)
Theorem gauge_labels_only_grow cfg valid_stacks generate_latest st evs :
  PyDict.keys (stack_gauge st)
  `prefix_of` PyDict.keys (stack_gauge (run cfg valid_stacks generate_latest st evs).2).
Proof.
  revert st. induction evs as [|ev evs IH]; intros st; simpl; [done|].
  etrans; [|apply IH]. destruct ev as [w|]; simpl.
  - by destruct (iteration_spec cfg valid_stacks w st) as [-> _].
  - apply keys_set_gauges_prefix.
Qed.

(** ** The refresh loop does not see the scrapes *)

Section non_interference.

Lemma same_but_gauge_refl s : same_but_gauge s s.
Proof. done. Qed.

Lemma ignores_ret {A} (a : A) : ignores_gauge (mret a : M A).
Proof. by intros s s' Hs. Qed.

Lemma ignores_raise {A} e : ignores_gauge (raise e : M A).
Proof. by intros s s' Hs. Qed.

Lemma ignores_bind {A B} (m : M A) (f : A → M B) :
  ignores_gauge m → (∀ a, ignores_gauge (f a)) → ignores_gauge (m ≫= f).
Proof.
  intros Hm Hf s s' Hs. rewrite !bind_unfold.
  destruct (Hm s s' Hs) as [Hres Hst].
  destruct (m s) as [[a|e] s1], (m s') as [[a'|e'] s1']; simpl in *; try done.
  - injection Hres as ->. by apply Hf.
  - by injection Hres as ->.
Qed.

Lemma ignores_try_except {A} (m : M A) (h : exn → M A) :
  ignores_gauge m → (∀ e, ignores_gauge (h e)) → ignores_gauge (try_except m h).
Proof.
  intros Hm Hh s s' Hs. unfold try_except.
  destruct (Hm s s' Hs) as [Hres Hst].
  destruct (m s) as [[a|e] s1], (m s') as [[a'|e'] s1']; simpl in *; try done.
  injection Hres as ->. by apply Hh.
Qed.

Lemma ignores_perform e : ignores_gauge (perform e).
Proof.
  intros s s' (Hc & Ht & Hl). simpl. split; [done|].
  unfold same_but_gauge. simpl. by rewrite Hl.
Qed.

Lemma ignores_read_token : ignores_gauge read_token.
Proof. intros s s' (Hc & Ht & Hl). simpl. by rewrite Ht. Qed.

Lemma ignores_write_token token : ignores_gauge (write_token token).
Proof. intros s s' (Hc & Ht & Hl). done. Qed.

Lemma ignores_write_stack_cache d : ignores_gauge (write_stack_cache d).
Proof. intros s s' (Hc & Ht & Hl). done. Qed.

Lemma ignores_subscript {A} (field : option A) : ignores_gauge (subscript field).
Proof. destruct field; [apply ignores_ret | apply ignores_raise]. Qed.

Lemma ignores_send {B} e (answer : reply B) : ignores_gauge (send e answer).
Proof.
  unfold send. apply ignores_bind; [apply ignores_perform|]. intros _.
  destruct answer; [apply ignores_raise | apply ignores_ret].
Qed.

Lemma ignores_api_call {B} cfg (server : request → reply B) url :
  ignores_gauge (api_call cfg server url).
Proof.
  unfold api_call. apply ignores_bind; [apply ignores_read_token|]. intros token.
  apply ignores_bind; [apply ignores_send|]. intros response.
  apply ignores_bind.
  - unfold raise_for_status. destruct (_ && _)%bool; [apply ignores_raise | apply ignores_ret].
  - intros _. unfold json. destruct response.2; [apply ignores_ret | apply ignores_raise].
Qed.

Lemma ignores_get_token cfg (server : request → reply token_body) :
  ignores_gauge (get_token cfg server).
Proof.
  unfold get_token. apply ignores_bind; [apply ignores_send|]. intros response.
  apply ignores_bind.
  { unfold raise_for_status. destruct (_ && _)%bool; [apply ignores_raise | apply ignores_ret]. }
  intros _. apply ignores_bind.
  { unfold json. destruct response.2; [apply ignores_ret | apply ignores_raise]. }
  intros body. apply ignores_bind; [apply ignores_subscript|]. intros token.
  apply ignores_write_token.
Qed.

Lemma ignores_page_discovery cfg w remaining :
  ignores_gauge (page_discovery cfg w remaining).
Proof.
  induction remaining as [|remaining IH]; [apply ignores_raise|].
  simpl. apply ignores_try_except; [apply ignores_api_call|]. intros e.
  apply ignores_bind; [|intros _; apply IH].
  unfold on_discovery_error. destruct e as [[status_code|]| |];
    try apply ignores_perform.
  destruct (_ || _)%bool; [|apply ignores_perform].
  apply ignores_bind; [apply ignores_get_token|]. intros _. apply ignores_perform.
Qed.

Lemma ignores_fetch_all cfg w all_urls : ignores_gauge (fetch_all cfg w all_urls).
Proof.
  induction all_urls as [|u rest IH]; simpl; [apply ignores_ret|].
  apply ignores_bind; [apply ignores_api_call|]. intros response.
  apply ignores_bind; [apply IH|]. intros responses. apply ignores_ret.
Qed.

Lemma ignores_refresh cfg valid_stacks w : ignores_gauge (refresh cfg valid_stacks w).
Proof.
  unfold refresh.
  apply ignores_bind; [apply ignores_page_discovery|]. intros page.
  apply ignores_bind; [apply ignores_subscript|]. intros p.
  apply ignores_bind; [apply ignores_subscript|]. intros n.
  apply ignores_bind; [apply ignores_fetch_all|]. intros responses.
  apply ignores_bind; [apply ignores_write_stack_cache|]. intros _.
  apply ignores_ret.
Qed.

Lemma iteration_ignores_gauge cfg valid_stacks w s s' :
  same_but_gauge s s' →
  (iteration cfg valid_stacks w s).1 = (iteration cfg valid_stacks w s').1
  ∧ same_but_gauge (iteration cfg valid_stacks w s).2 (iteration cfg valid_stacks w s').2.
Proof.
  intros Hs. unfold iteration.
  destruct (ignores_refresh cfg valid_stacks w s s' Hs) as [Hres Hst].
  destruct (refresh cfg valid_stacks w s) as [[d|e] s1],
           (refresh cfg valid_stacks w s') as [[d'|e'] s1']; simpl in *; try done.
  - injection Hres as ->. split; [done|]. by apply ignores_perform.
  - injection Hres as ->. split; [done|]. by apply ignores_perform.
Qed.

Lemma run_ignores_scrapes cfg valid_stacks generate_latest evs s s' :
  same_but_gauge s s' →
  same_but_gauge (run cfg valid_stacks generate_latest s evs).2
                 (run cfg valid_stacks generate_latest s' (List.filter is_pass evs)).2
  ∧ pass_outcomes (run cfg valid_stacks generate_latest s evs).1
    = pass_outcomes (run cfg valid_stacks generate_latest s' (List.filter is_pass evs)).1.
Proof.
  revert s s'. induction evs as [|ev evs IH]; intros s s' Hs; [done|].
  destruct ev as [w|]; simpl.
  - destruct (iteration_ignores_gauge cfg valid_stacks w s s' Hs) as [Hres Hst].
    destruct (IH _ _ Hst) as [Hfinal Hout]. split; [done|]. by rewrite Hres, Hout.
  - apply IH. destruct Hs as (Hc & Ht & Hl). done.
Qed.

End non_interference.

(** X21.  Scrapes do not influence the refresh loop: a run and the same run
    with its scrapes removed give the same pass outcomes and end with the
    same cache, token and log. *)
Theorem scrapes_do_not_affect_refresh cfg valid_stacks generate_latest st evs :
  let r := run cfg valid_stacks generate_latest st evs in
  let r' := run cfg valid_stacks generate_latest st (List.filter is_pass evs) in
  pass_outcomes r.1 = pass_outcomes r'.1
  ∧ stack_cache r.2 = stack_cache r'.2
  ∧ CF_AUTH_TOKEN r.2 = CF_AUTH_TOKEN r'.2
  ∧ log r.2 = log r'.2.
Proof.
  intros r r'. subst r r'.
  destruct (run_ignores_scrapes cfg valid_stacks generate_latest evs st st
              (same_but_gauge_refl st)) as [(Hc & Ht & Hl) Hout].
  done.
Qed.

(** ** Configuration and startup *)

Lemma ascii_lower_idempotent c : ascii_lower (ascii_lower c) = ascii_lower c.
Proof. by destruct c as [[] [] [] [] [] [] [] []]. Qed.

Lemma lower_idempotent s : lower (lower s) = lower s.
Proof.
  induction s as [|c s IH]; simpl; [done|].
  by rewrite ascii_lower_idempotent, IH.
Qed.

(** X22.  [str2bool] does not look at the case of ASCII letters: a value and
    its lower-case form are read alike. *)
Theorem str2bool_ignores_case s : str2bool (EnvText (lower s)) = str2bool (EnvText s).
Proof. unfold str2bool. simpl. by rewrite lower_idempotent. Qed.

Lemma missing_vars_spec environ var :
  var ∈ missing_vars environ
  ↔ var ∈ REQUIRED_ENV_VARS
    ∧ (PyDict.get environ var = None ∨ PyDict.get environ var = Some "").
Proof.
  unfold missing_vars. rewrite !list_elem_of_In, filter_In.
  apply and_iff_compat_l. rewrite negb_true_iff.
  destruct (PyDict.get environ var) as [[|c v]|]; simpl; split; try done;
    try (by intros [?|?]); auto.
Qed.

(** X23.  [validate_env_vars] exits with status 1 exactly when a required
    variable is unset or set to the empty string, naming exactly those
    variables; otherwise it keeps the API URL when the parser finds a scheme
    in it and puts [https://] in front of it when it finds none. *)
Theorem validate_env_vars_spec scheme environ :
  match validate_env_vars scheme environ with
  | SysExit code missing =>
      code = 1
      ∧ missing ≠ []
      ∧ ∀ var, var ∈ missing
               ↔ var ∈ REQUIRED_ENV_VARS
                 ∧ (PyDict.get environ var = None ∨ PyDict.get environ var = Some "")
  | Validated api_url =>
      Forall (fun var => ∃ v, PyDict.get environ var = Some v ∧ v ≠ "") REQUIRED_ENV_VARS
      ∧ ∃ u, PyDict.get environ "CF_API_URL" = Some u
             ∧ api_url = (if decide (scheme u = "") then "https://" +:+ u else u)
  end.
Proof.
  unfold validate_env_vars.
  pose proof (missing_vars_spec environ) as Hspec.
  destruct (missing_vars environ) as [|var0 missing] eqn:Hmissing.
  - assert (∀ var, var ∈ REQUIRED_ENV_VARS →
                   ∃ v, PyDict.get environ var = Some v ∧ v ≠ "") as Hset.
    { intros var Hvar.
      destruct (PyDict.get environ var) as [[|c v]|] eqn:Hget.
      - exfalso. eapply not_elem_of_nil, Hspec. eauto.
      - by eexists.
      - exfalso. eapply not_elem_of_nil, Hspec. eauto. }
    destruct (Hset "CF_API_URL") as (u & Hu & _); [repeat constructor|].
    rewrite Hu. simpl.
    assert (match scheme u with
            | "" => Validated ("https://" +:+ u)
            | String _ _ => Validated u
            end
            = Validated (if decide (scheme u = "") then "https://" +:+ u else u)) as ->.
    { destruct (scheme u); [by rewrite decide_True | by rewrite decide_False]. }
    split; [|by exists u].
    apply Forall_forall. intros var Hvar. by apply Hset.
  - split; [done|]. split; [done|]. exact Hspec.
Qed.

Lemma append_names_spec stacks valid_stacks st :
  append_names valid_stacks stacks st
  = (match mapM name stacks with
     | Some names => Returned (valid_stacks ++ names)
     | None => Raised KeyError
     end, st).
Proof.
  revert valid_stacks. induction stacks as [|stack rest IH]; intros valid_stacks; simpl.
  - by rewrite (right_id_L [] (++)).
  - rewrite bind_unfold. destruct (name stack) as [n|]; simpl; [|done].
    rewrite IH. destruct (mapM name rest) as [names|]; simpl; [|done].
    by rewrite <- (assoc_L (++)).
Qed.

Lemma grab_valid_stacks_effects cfg (server : request → reply StackList.t) valid_stacks st :
  let req := api_call_request cfg (CF_AUTH_TOKEN st) (CF_API_URL cfg +:+ "/v3/stacks") in
  let r := grab_valid_stacks cfg server valid_stacks st in
  log r.2 = Get req :: log st
  ∧ CF_AUTH_TOKEN r.2 = CF_AUTH_TOKEN st
  ∧ stack_cache r.2 = stack_cache st
  ∧ stack_gauge r.2 = stack_gauge st
  ∧ match reply_body (server req) with
    | None => ∃ response, r.1 = Raised (RequestException response)
    | Some body =>
        match StackList.resources body with
        | None => r.1 = Raised KeyError
        | Some stacks =>
            match mapM name stacks with
            | Some names => r.1 = Returned (valid_stacks ++ names)
            | None => r.1 = Raised KeyError
            end
        end
    end.
Proof.
  intros req r. subst req r. unfold grab_valid_stacks. rewrite bind_unfold.
  pose proof (api_call_effects cfg server (CF_API_URL cfg +:+ "/v3/stacks") st)
    as (Hlog & Htoken & Hcache & Hgauge).
  pose proof (api_call_returns cfg server (CF_API_URL cfg +:+ "/v3/stacks") st) as Hret.
  pose proof (api_call_raises_None cfg server (CF_API_URL cfg +:+ "/v3/stacks") st) as Hraise.
  destruct (reply_body _) as [body|].
  - pose proof (proj2 (Hret body) eq_refl) as Hb. clear Hret Hraise.
    destruct (api_call cfg server _ st) as [r st1]. simpl in *. subst r.
    rewrite bind_unfold. destruct (StackList.resources body) as [stacks|]; simpl; [|done].
    rewrite append_names_spec. simpl. repeat split; try done.
    by destruct (mapM name stacks).
  - destruct (Hraise eq_refl) as [response Hr]. clear Hret Hraise.
    destruct (api_call cfg server _ st) as [r st1]. simpl in *. subst r.
    repeat split; try done. by exists response.
Qed.

(** X24.  [grab_valid_stacks] sends one GET to [/v3/stacks] with the current
    token.  When the listing is answered, the valid-stack list becomes the
    list it was followed by the names of the listed stacks, in their order
    and with their repetitions; a listing without [resources], or an
    element without [name], raises [KeyError]. *)
Theorem grab_valid_stacks_appends_names cfg (server : request → reply StackList.t)
    valid_stacks st :
  let req := api_call_request cfg (CF_AUTH_TOKEN st) (CF_API_URL cfg +:+ "/v3/stacks") in
  let r := grab_valid_stacks cfg server valid_stacks st in
  log r.2 = Get req :: log st
  ∧ CF_AUTH_TOKEN r.2 = CF_AUTH_TOKEN st
  ∧ stack_cache r.2 = stack_cache st
  ∧ stack_gauge r.2 = stack_gauge st
  ∧ match reply_body (server req) with
    | None => ∃ response, r.1 = Raised (RequestException response)
    | Some body =>
        match StackList.resources body with
        | None => r.1 = Raised KeyError
        | Some stacks =>
            match mapM name stacks with
            | Some names => r.1 = Returned (valid_stacks ++ names)
            | None => r.1 = Raised KeyError
            end
        end
    end.
Proof. apply grab_valid_stacks_effects. Qed.

Lemma get_uaa_endpoint_effects cfg (server : request → reply info_body) st :
  let req := api_call_request cfg (CF_AUTH_TOKEN st) (CF_API_URL cfg) in
  let r := get_uaa_endpoint cfg server st in
  log r.2 = Get req :: log st
  ∧ CF_AUTH_TOKEN r.2 = CF_AUTH_TOKEN st
  ∧ stack_cache r.2 = stack_cache st
  ∧ stack_gauge r.2 = stack_gauge st
  ∧ match r.1 with
    | Returned uaa_url =>
        ∃ body l u, reply_body (server req) = Some body
                    ∧ links body = Some l ∧ uaa l = Some u ∧ href u = Some uaa_url
    | Raised err => err ≠ Exception
    end.
Proof.
  intros req r. subst req r. unfold get_uaa_endpoint. rewrite bind_unfold.
  pose proof (api_call_effects cfg server (CF_API_URL cfg) st)
    as (Hlog & Htoken & Hcache & Hgauge).
  pose proof (api_call_returns cfg server (CF_API_URL cfg) st) as Hret.
  pose proof (api_call_raised_kinds cfg server (CF_API_URL cfg) st) as Hkind.
  destruct (api_call cfg server (CF_API_URL cfg) st) as [[body|e] st1]; simpl in *.
  - pose proof (proj1 (Hret body) eq_refl) as Hbody.
    rewrite bind_unfold. destruct (links body) as [l|] eqn:Hl; simpl; [|done].
    rewrite bind_unfold. destruct (uaa l) as [u|] eqn:Hu; simpl; [|done].
    destruct (href u) as [h|] eqn:Hh; simpl; [|done].
    repeat split; try done. by exists body, l, u.
  - repeat split; try done. by destruct e as [[?|]| |].
Qed.

(** X25.  The [__main__] block ends in one of three ways.  It exits with
    status 1, before any request, exactly when a required variable is
    missing.  It stops on the exception of a startup request.  Or it starts
    the refresh loop: it has then sent, in this order, a GET of the API root
    with an empty bearer token, the login POST to the [href] the root
    answered, and, only when invalid stacks are not included, a GET of
    [/v3/stacks] with the token of that login; the valid-stack list is the
    names of that listing, or empty when invalid stacks are included, and
    the cache and the gauge are empty. *)
Theorem main_startup_sequence scheme scrape_interval environ sw :
  match main scheme scrape_interval environ sw with
  | Exited code => code = 1 ∧ missing_vars environ ≠ []
  | Crashed err st =>
      missing_vars environ = [] ∧ err ≠ Exception
      ∧ stack_cache st = [] ∧ (length (log st) ≤ 3)%nat
  | Running cfg valid_stacks st =>
      missing_vars environ = []
      ∧ INCLUDE_INVALID_STACKS cfg = INCLUDE_INVALID_STACKS_from environ
      ∧ stack_cache st = [] ∧ stack_gauge st = []
      ∧ (∃ body, reply_body (login_reply sw (get_token_request cfg)) = Some body
                 ∧ access_token body = Some (CF_AUTH_TOKEN st))
      ∧ (∃ body l u,
           reply_body (info_reply sw (api_call_request cfg "" (CF_API_URL cfg))) = Some body
           ∧ links body = Some l ∧ uaa l = Some u ∧ href u = Some (CF_UAA_URL cfg))
      ∧ if INCLUDE_INVALID_STACKS cfg
        then valid_stacks = []
             ∧ rev (log st)
               = [Get (api_call_request cfg "" (CF_API_URL cfg));
                  Post (get_token_request cfg)]
        else rev (log st)
             = [Get (api_call_request cfg "" (CF_API_URL cfg));
                Post (get_token_request cfg);
                Get (api_call_request cfg (CF_AUTH_TOKEN st) (CF_API_URL cfg +:+ "/v3/stacks"))]
             ∧ ∃ body stacks,
                 reply_body (stacks_reply sw
                               (api_call_request cfg (CF_AUTH_TOKEN st)
                                  (CF_API_URL cfg +:+ "/v3/stacks"))) = Some body
                 ∧ StackList.resources body = Some stacks
                 ∧ mapM name stacks = Some valid_stacks
  end.
Proof.
  unfold main.
  assert (match validate_env_vars scheme environ with
          | SysExit code _ => code = 1 ∧ missing_vars environ ≠ []
          | Validated _ => missing_vars environ = []
          end) as Hval.
  { unfold validate_env_vars. destruct (missing_vars environ); [|done].
    by destruct (scheme _). }
  destruct (validate_env_vars scheme environ) as [code missing|api_url]; [done|].
  rename Hval into Hnone.
  set (cfg0 := load_config environ api_url scrape_interval).
  pose proof (get_uaa_endpoint_effects cfg0 (info_reply sw) (initial_state ""))
    as (Hlog1 & Htok1 & Hcache1 & Hgauge1 & Hres1).
  cbv zeta in Hlog1, Htok1, Hcache1, Hgauge1, Hres1.
  destruct (get_uaa_endpoint cfg0 (info_reply sw) (initial_state "")) as [[uaa_url|e] st1];
    cbn [fst snd] in *.
  2: { repeat split; try done. rewrite Hlog1. simpl. lia. }
  set (cfg := with_uaa_url cfg0 uaa_url).
  assert (INCLUDE_INVALID_STACKS cfg = INCLUDE_INVALID_STACKS_from environ) as Hinc
    by reflexivity.
  assert (∀ token u, api_call_request cfg0 token u = api_call_request cfg token u) as Hreq
    by reflexivity.
  assert (CF_API_URL cfg0 = CF_API_URL cfg) as Hurl by reflexivity.
  assert (CF_UAA_URL cfg = uaa_url) as Huaa by reflexivity.
  clearbody cfg cfg0. rewrite Hreq, Hurl in Hlog1, Hres1.
  simpl in Hlog1, Htok1, Hcache1, Hgauge1, Hres1.
  pose proof (get_token_effects cfg (login_reply sw) st1) as (Hres2 & Hlog2 & Hcache2 & Hgauge2).
  cbv zeta in Hres2, Hlog2, Hcache2, Hgauge2.
  destruct (get_token cfg (login_reply sw) st1) as [[[]|e] st2]; cbn [fst snd] in *.
  2: { destruct Hres2 as [_ He]. repeat split; try done; [congruence|].
       rewrite Hlog2, Hlog1. simpl. lia. }
  rewrite Hlog1 in Hlog2.
  destruct (INCLUDE_INVALID_STACKS cfg) eqn:Hinclude.
  - rewrite ?Hinclude.
    split; [done|]. split; [done|]. split; [congruence|]. split; [congruence|].
    split; [done|]. split; [by rewrite Huaa|]. split; [done|]. by rewrite Hlog2.
  - pose proof (grab_valid_stacks_effects cfg (stacks_reply sw) [] st2)
      as (Hlog3 & Htok3 & Hcache3 & Hgauge3 & Hres3).
    cbv zeta in Hlog3, Htok3, Hcache3, Hgauge3, Hres3.
    destruct (grab_valid_stacks cfg (stacks_reply sw) [] st2) as [[valid_stacks|e] st3];
      cbn [fst snd] in *.
    + rewrite ?Hinclude.
      split; [done|]. split; [done|]. split; [congruence|]. split; [congruence|].
      split. { destruct Hres2 as (body & Hbody & Htoken). exists body. by rewrite Htok3. }
      split; [by rewrite Huaa|].
      rewrite Htok3. split; [by rewrite Hlog3, Hlog2|].
      destruct (reply_body (stacks_reply sw _)) as [body|]; [|by destruct Hres3].
      destruct (StackList.resources body) as [stacks|] eqn:Hstacks; [|done].
      destruct (mapM name stacks) as [names|] eqn:Hnames; [|done].
      injection Hres3 as <-. by exists body, stacks.
    + split; [done|]. split.
      { destruct (reply_body (stacks_reply sw _)) as [body|];
          [|by destruct Hres3 as [? [= ->]]].
        destruct (StackList.resources body) as [stacks|]; [|by injection Hres3 as ->].
        destruct (mapM name stacks); [done | by injection Hres3 as ->]. }
      split; [congruence|]. rewrite Hlog3, Hlog2. simpl. lia.
Qed.

(** X26.  Every request the refresh loop sends, in any run, has the
    certificate of the server checked exactly when the skip flag is set:
    the flag decides for all requests alike, logins included. *)
Theorem every_request_verifies_iff_skip_flag cfg valid_stacks generate_latest token evs :
  Forall (fun r => tls_verification_performed r = SKIP_SSL_VALIDATION cfg)
         (requests (log (run cfg valid_stacks generate_latest (initial_state token) evs).2)).
Proof.
  apply (run_state_invariant cfg valid_stacks generate_latest
           (fun s => Forall (fun r => tls_verification_performed r = SKIP_SSL_VALIDATION cfg)
                            (requests (log s)))); [|constructor].
  intros s [w|] Hs; simpl; [|done].
  by apply iteration_requests_verify.
Qed.

(** ** The retry loop on a body that may equal 0 *)

Section loop.
Context (cfg : config) (lw : loop_world).

Lemma discovery_loop_S iterations calls retries st :
  discovery_loop cfg lw (S iterations) calls retries st
  = if (5 <=? retries)%nat then (Raised Exception, st)
    else match api_call cfg (loop_apps_reply lw calls) (apps_endpoint cfg) st with
         | (Returned (ObjectBody page), st') => (Returned (Some page), st')
         | (Returned ZeroBody, st') =>
             discovery_loop cfg lw iterations (S calls) retries st'
         | (Raised err, st') =>
             (on_loop_error cfg lw calls err;;
              discovery_loop cfg lw iterations (S calls) (S retries)) st'
         end.
Proof. cbn [discovery_loop]. destruct (5 <=? retries)%nat; reflexivity. Qed.

(** Read as objects, the answers make [api_call] return and raise alike,
    as long as no body equals 0. *)
Lemma api_call_as_object (server : request → reply discovery_body) url st :
  reply_body (server (api_call_request cfg (CF_AUTH_TOKEN st) url)) ≠ Some ZeroBody →
  api_call cfg (fun req => as_object (server req)) url st
  = match api_call cfg server url st with
    | (Returned (ObjectBody page), st') => (Returned page, st')
    | (Returned ZeroBody, st') => (Raised (RequestException None), st')
    | (Raised err, st') => (Raised err, st')
    end.
Proof.
  rewrite !api_call_unfold. cbv zeta. unfold reply_body, as_object.
  destruct (server _) as [|status_code body]; [done|].
  destruct ((400 <=? status_code) && (status_code <? 600))%bool; [done|].
  by destruct body as [[page|]|].
Qed.

Lemma on_loop_error_typed calls err :
  on_loop_error cfg lw calls err = on_discovery_error cfg (typed lw) calls err.
Proof. reflexivity. Qed.

(** On answers that never equal 0 the loop is the loop of the worlds whose
    bodies are objects, as soon as it is given its six iterations. *)
Lemma discovery_loop_typed remaining iterations st :
  never_zero lw →
  (remaining ≤ 5)%nat → (remaining < iterations)%nat →
  discovery_loop cfg lw iterations (5 - remaining) (5 - remaining) st
  = match page_discovery cfg (typed lw) remaining st with
    | (Returned page, st') => (Returned (Some page), st')
    | (Raised err, st') => (Raised err, st')
    end.
Proof.
  intros Hnever. revert iterations st.
  induction remaining as [|remaining IH]; intros iterations st Hle Hlt.
  - destruct iterations as [|iterations]; [lia|]. by rewrite discovery_loop_S.
  - destruct iterations as [|iterations]; [lia|].
    rewrite discovery_loop_S, page_discovery_S. unfold try_except.
    replace (5 <=? 5 - S remaining)%nat with false
      by (symmetry; apply Nat.leb_gt; lia).
    change (apps_reply (typed lw) (5 - S remaining))
      with (fun req => as_object (loop_apps_reply lw (5 - S remaining) req)).
    rewrite api_call_as_object by apply Hnever.
    pose proof (api_call_returns cfg (loop_apps_reply lw (5 - S remaining))
                  (apps_endpoint cfg) st ZeroBody) as Hzero.
    destruct (api_call cfg (loop_apps_reply lw (5 - S remaining)) (apps_endpoint cfg) st)
      as [[[page|]|err] st1]; simpl in Hzero.
    + done.
    + exfalso. by apply (Hnever _ _ (proj1 Hzero eq_refl)).
    + rewrite !bind_unfold, on_loop_error_typed.
      destruct (on_discovery_error cfg (typed lw) (5 - S remaining) err st1)
        as [[[]|err'] st2]; [|done].
      replace (S (5 - S remaining)) with (5 - remaining)%nat by lia.
      apply IH; lia.
Qed.

(** On answers that all equal 0 the loop runs on: an iteration sends a GET
    at once and leaves [retries] as it is. *)
Lemma discovery_loop_zero iterations calls retries st :
  always_zero lw → (retries < 5)%nat →
  (discovery_loop cfg lw iterations calls retries st).1 = Returned None
  ∧ log st `suffix_of` log (discovery_loop cfg lw iterations calls retries st).2
  ∧ gets (log (discovery_loop cfg lw iterations calls retries st).2)
    = (gets (log st) + iterations)%nat
  ∧ posts (log (discovery_loop cfg lw iterations calls retries st).2) = posts (log st)
  ∧ slept (log (discovery_loop cfg lw iterations calls retries st).2) = slept (log st)
  ∧ stack_cache (discovery_loop cfg lw iterations calls retries st).2 = stack_cache st.
Proof.
  intros Hzero Hretries. revert calls st.
  induction iterations as [|iterations IH]; intros calls st.
  - simpl. repeat split; (done || lia).
  - rewrite discovery_loop_S.
    replace (5 <=? retries)%nat with false by (symmetry; apply Nat.leb_gt; lia).
    pose proof (api_call_effects cfg (loop_apps_reply lw calls) (apps_endpoint cfg) st)
      as (Hlog & _ & Hcache & _).
    pose proof (proj2 (api_call_returns cfg (loop_apps_reply lw calls) (apps_endpoint cfg)
                         st ZeroBody) (Hzero _ _)) as Hret.
    destruct (api_call cfg (loop_apps_reply lw calls) (apps_endpoint cfg) st) as [r st1].
    simpl in Hret, Hlog, Hcache. subst r.
    destruct (IH (S calls) st1) as (Hres & Hsuffix & Hgets & Hposts & Hslept & Hcache').
    rewrite Hlog in Hsuffix, Hgets, Hposts, Hslept. unfold gets, posts in *. simpl in *.
    repeat split; try done; try lia; try congruence.
    by eapply suffix_cons_l.
Qed.

Lemma refresh_loop_typed valid_stacks iterations st :
  never_zero lw → (6 ≤ iterations)%nat →
  refresh_loop cfg valid_stacks lw iterations st
  = match refresh cfg valid_stacks (typed lw) st with
    | (Returned stack_counts, st') => (Returned (Some stack_counts), st')
    | (Raised err, st') => (Raised err, st')
    end.
Proof.
  intros Hnever Hiterations. unfold refresh_loop, refresh. rewrite !bind_unfold.
  pose proof (discovery_loop_typed 5 iterations st Hnever ltac:(lia) ltac:(lia)) as Hloop.
  change (5 - 5)%nat with 0%nat in Hloop. rewrite Hloop.
  destruct (page_discovery cfg (typed lw) 5 st) as [[page|err] st1]; [|done].
  rewrite !bind_unfold.
  destruct (subscript (pagination page) st1) as [[p|err] st2]; [|done].
  rewrite !bind_unfold.
  destruct (subscript (total_pages p) st2) as [[n|err] st3]; [|done].
  rewrite !bind_unfold.
  by destruct (fetch_all cfg (typed lw) (page_url cfg <$> seqZ 1 n) st3)
    as [[responses|err] st4].
Qed.

Lemma pass_loop_typed valid_stacks iterations st :
  never_zero lw → (6 ≤ iterations)%nat →
  pass_loop cfg valid_stacks lw iterations st
  = Some (iteration cfg valid_stacks (typed lw) st).
Proof.
  intros Hnever Hiterations. unfold pass_loop, iteration.
  rewrite refresh_loop_typed by done.
  by destruct (refresh cfg valid_stacks (typed lw) st) as [[stack_counts|err] st'].
Qed.

End loop.

Lemma untyped_never_zero w : never_zero (untyped w).
Proof.
  intros n req. unfold untyped, reply_body. simpl.
  destruct (apps_reply w n req) as [|status_code body]; [done|].
  destruct ((400 <=? status_code) && (status_code <? 600))%bool; [done|].
  by destruct body.
Qed.

(** X10.  As long as no request for the application list is answered by a
    body equal to 0, the retry loop ends within six iterations, by a return
    or an exception, having sent at most five GETs and at most five login
    POSTs and slept five seconds at most five times; it touches neither the
    cache nor the gauge. *)
Theorem discovery_loop_bounded cfg lw st (iterations : nat) :
  never_zero lw →
  (6 ≤ iterations)%nat →
  let r := discovery_loop cfg lw iterations 0 0 st in
  r.1 ≠ Returned None
  ∧ (gets (log r.2) ≤ gets (log st) + 5)%nat
  ∧ (posts (log r.2) ≤ posts (log st) + 5)%nat
  ∧ (∃ j, 0 ≤ j ≤ 5 ∧ slept (log r.2) = slept (log st) + 5 * j)
  ∧ stack_cache r.2 = stack_cache st
  ∧ stack_gauge r.2 = stack_gauge st.
Proof.
  intros Hnever Hiterations r. subst r.
  pose proof (discovery_loop_typed cfg lw 5 iterations st Hnever ltac:(lia) ltac:(lia))
    as Hloop.
  change (5 - 5)%nat with 0%nat in Hloop. rewrite Hloop.
  pose proof (page_discovery_effects cfg (typed lw) 5 st)
    as (Hc & Hg & Hgets & Hposts & j & Hj & Hs).
  cbv zeta in *.
  destruct (page_discovery cfg (typed lw) 5 st) as [[page|err] st1]; simpl in *;
    (split; [done|]; repeat split; try done; exists j; split; [lia | done]).
Qed.

Lemma discovery_loop_bounded_witness :
  let r := discovery_loop sample_config (untyped world_relogin_ok) 6 0 0 sample_state in
  r.1 ≠ Returned None
  ∧ (gets (log r.2) ≤ gets (log sample_state) + 5)%nat
  ∧ (posts (log r.2) ≤ posts (log sample_state) + 5)%nat
  ∧ (∃ j, 0 ≤ j ≤ 5 ∧ slept (log r.2) = slept (log sample_state) + 5 * j)
  ∧ stack_cache r.2 = stack_cache sample_state
  ∧ stack_gauge r.2 = stack_gauge sample_state.
Proof.
  apply (discovery_loop_bounded sample_config (untyped world_relogin_ok) sample_state 6).
  - apply untyped_never_zero.
  - lia.
Defined.

(** X18.  As long as no request for the application list is answered by a
    body equal to 0, a pass ends, and it has then slept the interval plus
    five seconds for each of at most five retried attempts, and made at most
    five logins. *)
Theorem pass_loop_sleeps_interval_and_backoff cfg valid_stacks lw st (iterations : nat) :
  never_zero lw →
  (6 ≤ iterations)%nat →
  ∃ o st',
    pass_loop cfg valid_stacks lw iterations st = Some (o, st')
    ∧ (∃ j, 0 ≤ j ≤ 5
            ∧ slept (log st') = slept (log st) + 5 * j + SCRAPE_INTERVAL cfg)
    ∧ (posts (log st') ≤ posts (log st) + 5)%nat.
Proof.
  intros Hnever Hiterations.
  rewrite (pass_loop_typed cfg lw valid_stacks iterations st Hnever Hiterations).
  pose proof (iteration_sleeps cfg valid_stacks (typed lw) st) as Hsleeps.
  cbv zeta in Hsleeps.
  destruct (iteration cfg valid_stacks (typed lw) st) as [o st'].
  by exists o, st'.
Qed.

Lemma pass_loop_sleeps_interval_and_backoff_witness :
  ∃ o st',
    pass_loop sample_config sample_valid_stacks (untyped world_relogin_ok) 6 sample_state
    = Some (o, st')
    ∧ (∃ j, 0 ≤ j ≤ 5
            ∧ slept (log st') = slept (log sample_state) + 5 * j
                                + SCRAPE_INTERVAL sample_config)
    ∧ (posts (log st') ≤ posts (log sample_state) + 5)%nat.
Proof.
  apply (pass_loop_sleeps_interval_and_backoff sample_config sample_valid_stacks
           (untyped world_relogin_ok) sample_state 6).
  - apply untyped_never_zero.
  - lia.
Defined.

(** X27.  When every request for the application list is answered by a
    body equal to 0, the retry loop does not end: after any number of
    iterations it is still running, and it has sent one GET in each of
    them, without a sleep, without a login, and without using any of its
    five retries; the pass never reaches its publication. *)
Theorem discovery_loop_spins_on_zero cfg valid_stacks lw st (iterations : nat) :
  always_zero lw →
  let r := discovery_loop cfg lw iterations 0 0 st in
  r.1 = Returned None
  ∧ gets (log r.2) = (gets (log st) + iterations)%nat
  ∧ posts (log r.2) = posts (log st)
  ∧ slept (log r.2) = slept (log st)
  ∧ stack_cache r.2 = stack_cache st
  ∧ pass_loop cfg valid_stacks lw iterations st = None.
Proof.
  intros Hzero r. subst r.
  destruct (discovery_loop_zero cfg lw iterations 0 0 st Hzero)
    as (Hres & _ & Hgets & Hposts & Hslept & Hcache); [lia|].
  repeat split; try done.
  unfold pass_loop, refresh_loop. rewrite bind_unfold.
  destruct (discovery_loop cfg lw iterations 0 0 st) as [res st1].
  simpl in Hres. by subst res.
Qed.

Lemma discovery_loop_spins_on_zero_witness :
  let r := discovery_loop sample_config loop_world_zero 100 0 0 sample_state in
  r.1 = Returned None
  ∧ gets (log r.2) = (gets (log sample_state) + 100)%nat
  ∧ posts (log r.2) = posts (log sample_state)
  ∧ slept (log r.2) = slept (log sample_state)
  ∧ stack_cache r.2 = stack_cache sample_state
  ∧ pass_loop sample_config sample_valid_stacks loop_world_zero 100 sample_state = None.
Proof.
  apply (discovery_loop_spins_on_zero sample_config sample_valid_stacks loop_world_zero
           sample_state 100).
  intros n req. reflexivity.
Defined.

(** ** The model at work *)

Example main_sample_starts :
  match main sample_scheme 300 sample_environ sample_startup_world with
  | Running cfg valid_stacks st =>
      CF_API_URL cfg = "https://api.example.com"
      ∧ CF_UAA_URL cfg = "https://uaa.example.com"
      ∧ valid_stacks = sample_valid_stacks
      ∧ CF_AUTH_TOKEN st = "first-token"
  | _ => False
  end.
Proof. by vm_compute. Qed.

Example main_sample_include_skips_stack_list :
  match main sample_scheme 300 sample_environ_include sample_startup_world with
  | Running cfg valid_stacks st =>
      INCLUDE_INVALID_STACKS cfg = true ∧ valid_stacks = [] ∧ gets (log st) = 1%nat
  | _ => False
  end.
Proof. by vm_compute. Qed.

Example main_empty_password_exits :
  main sample_scheme 300 sample_environ_empty_password sample_startup_world = Exited 1.
Proof. reflexivity. Qed.

Example scenario_with_invalid_stacks_included :
  aggregate sample_config_include [] [sample_page1; sample_page2]
  = [("cflinuxfs4", 3); ("bogus-stack", 1); ("windows2016", 1)].
Proof. reflexivity. Qed.

Example run_sample_serves_scenario :
  last_published
    (run sample_config sample_valid_stacks (fun _ => "") (initial_state "token")
       [Scrape; Pass world_up; Pass world_down; Scrape]).1 []
  = [("cflinuxfs4", 3); ("windows2016", 1)].
Proof. reflexivity. Qed.
